(** * Configuration bootstrap of the block-storage ingester

    A shallow embedding of [cmd/blockstoreingester/main.go] and of the parts
    of the Go libraries it calls ([flag], [os.Expand], [strconv.ParseBool],
    the Prometheus gauge vector), followed by the properties of the
    bootstrap protocol: locating the two bootstrap options among the raw
    arguments, expanding environment placeholders, loading the file and
    publishing its fingerprint, and the exit policy of [main].

    A Go [string] and a Go [[]byte] are both sequences of 8-bit bytes; they
    are modelled by [string], whose characters are the 256 values of
    [ascii].  The conversions [string(b)] and [[]byte(s)] are the identity. *)

From Stdlib Require Import Ascii String NArith.
From stdpp Require Import gmap strings list pretty.
From Equations Require Import Equations.

Open Scope string_scope.

(** Concatenation of strings reduces on a literal prefix. *)
#[local] Arguments String.append !s1 s2 : simpl nomatch.

(* ===================================================================== *)
(** ** Go string primitives *)
(* ===================================================================== *)

(** [len(s)] *)
Definition len (s : string) : nat := String.length s.

(** [s[j]], [None] when the index is out of range (Go panics there; every
    use below is guarded by a bounds test, as in the Go code). *)
Definition byteAt (s : string) (j : nat) : option ascii := String.get j s.

(** [s[j] == c], false out of range. *)
Definition byteIs (s : string) (j : nat) (c : ascii) : bool :=
  match byteAt s j with
  | Some b => bool_decide (b = c)
  | None => false
  end.

(** [s[j:]] *)
Fixpoint sliceFrom (j : nat) (s : string) : string :=
  match j, s with
  | 0, _ => s
  | S j', String _ t => sliceFrom j' t
  | S _, EmptyString => EmptyString
  end.

(** [s[:j]] *)
Fixpoint sliceTo (j : nat) (s : string) : string :=
  match j, s with
  | 0, _ => EmptyString
  | S j', String c t => String c (sliceTo j' t)
  | S _, EmptyString => EmptyString
  end.

(** [s[i:j]] *)
Definition slice (i j : nat) (s : string) : string :=
  sliceTo (j - i) (sliceFrom i s).

(** A value together with the equation that it is the result of the
    expression inspected: keeps [parseOne f = ...] in reach of the
    termination proofs below. *)
Definition inspect {A} (a : A) : {b : A | a = b} := exist _ a eq_refl.

(* ===================================================================== *)
(** ** strconv *)
(* ===================================================================== *)

Module strconv.

(** [strconv.ParseBool]: the accepted spellings, [None] for the syntax
    error. *)
Definition ParseBool (str : string) : option bool :=
  if bool_decide (str ∈ ["1"; "t"; "T"; "true"; "TRUE"; "True"]) then Some true
  else if bool_decide (str ∈ ["0"; "f"; "F"; "false"; "FALSE"; "False"]) then Some false
  else None.

End strconv.

(* ===================================================================== *)
(** ** The flag package: a flag set with the two bootstrap options *)
(* ===================================================================== *)

Module flag.

(** The kind of a defined flag.  [fs.StringVar(&configFile, ...)] binds a
    [stringValue] to the caller's variable, [fs.BoolVar(&expandEnv, ...)]
    a [boolValue]; the flag set below owns one cell for each. *)
Inductive Value := stringValue | boolValue.

Global Instance Value_eq_dec : EqDecision Value.
Proof. solve_decision. Defined.

(** The errors [Parse] returns under [ContinueOnError].  All output goes
    to [io.Discard], so only the error value remains. *)
Inductive error :=
| ErrHelp
| errBadSyntax (s : string)               (* bad flag syntax: %s *)
| errNotDefined (name : string)           (* flag provided but not defined: -%s *)
| errInvalidBoolValue (value name : string) (* invalid boolean value %q for -%s *)
| errInvalidBoolFlag (name : string)      (* invalid boolean flag %s *)
| errNeedsArgument (name : string).       (* flag needs an argument: -%s *)

Record FlagSet := mkFlagSet {
  formal : gmap string Value;   (* f.formal: the defined flags *)
  actual : gset string;         (* f.actual: the flags that were set *)
  args   : list string;         (* f.args: arguments after flags *)
  parsed : bool;                (* f.parsed *)
  strVar  : string;             (* the variable bound by StringVar *)
  boolVar : bool                (* the variable bound by BoolVar *)
}.

Definition set_args (a : list string) (f : FlagSet) : FlagSet :=
  mkFlagSet (formal f) (actual f) a (parsed f) (strVar f) (boolVar f).
Definition set_parsed (b : bool) (f : FlagSet) : FlagSet :=
  mkFlagSet (formal f) (actual f) (args f) b (strVar f) (boolVar f).
Definition set_strVar (v : string) (f : FlagSet) : FlagSet :=
  mkFlagSet (formal f) (actual f) (args f) (parsed f) v (boolVar f).
Definition set_boolVar (v : bool) (f : FlagSet) : FlagSet :=
  mkFlagSet (formal f) (actual f) (args f) (parsed f) (strVar f) v.
Definition add_actual (name : string) (f : FlagSet) : FlagSet :=
  mkFlagSet (formal f) ({[name]} ∪ actual f) (args f) (parsed f) (strVar f) (boolVar f).
Definition define (name : string) (v : Value) (f : FlagSet) : FlagSet :=
  mkFlagSet (<[name := v]> (formal f)) (actual f) (args f) (parsed f) (strVar f) (boolVar f).

(** [flag.NewFlagSet("", flag.ContinueOnError)] *)
Definition NewFlagSet : FlagSet := mkFlagSet ∅ ∅ [] false "" false.

(** [fs.StringVar(p, name, value, usage)]: [*p = value], then the flag is
    defined. *)
Definition StringVar (name value : string) (f : FlagSet) : FlagSet :=
  define name stringValue (set_strVar value f).

(** [fs.BoolVar(p, name, value, usage)] *)
Definition BoolVar (name : string) (value : bool) (f : FlagSet) : FlagSet :=
  define name boolValue (set_boolVar value f).

(** [boolValue.Set]: the parsed value is stored even when parsing
    fails, in which case it is [false]. *)
Definition boolValue_Set (s : string) (f : FlagSet) : FlagSet * bool :=
  match strconv.ParseBool s with
  | Some v => (set_boolVar v f, true)
  | None => (set_boolVar false f, false)
  end.

(** [stringValue.Set]: never fails. *)
Definition stringValue_Set (s : string) (f : FlagSet) : FlagSet :=
  set_strVar s f.

(** The loop [for i := 1; i < len(name); i++ { if name[i] == '=' ... }] of
    [parseOne]: the first index [i >= 1] holding ['='].  [n] counts the
    iterations left. *)
Fixpoint findEquals (n i : nat) (name : string) : option nat :=
  match n with
  | 0 => None
  | S n' => if byteIs name i "=" then Some i else findEquals n' (S i) name
  end.

(** The name, [hasValue] and the value of a flag token without its
    dashes. *)
Definition splitValue (name : string) : string * bool * string :=
  match findEquals (len name - 1) 1 name with
  | Some i => (sliceTo i name, true, sliceFrom (i + 1) name)
  | None => (name, false, "")
  end.

(** [FlagSet.parseOne]: parses one flag; the result is the flag set,
    whether a flag was seen, and the error. *)
Definition parseOne (f : FlagSet) : FlagSet * bool * option error :=
  match args f with
  | [] => (f, false, None)
  | s :: rest =>
    if (len s <? 2)%nat || negb (byteIs s 0 "-") then (f, false, None)
    else
      let numMinuses := if byteIs s 1 "-" then 2 else 1 in
      if byteIs s 1 "-" && (len s =? 2)%nat then
        (* "--" terminates the flags *)
        (set_args rest f, false, None)
      else
        let name := sliceFrom numMinuses s in
        if (len name =? 0)%nat || byteIs name 0 "-" || byteIs name 0 "=" then
          (f, false, Some (errBadSyntax s))
        else
          (* it's a flag. does it have an argument? *)
          let f := set_args rest f in
          let '(name, hasValue, value) := splitValue name in
          match formal f !! name with
          | None =>
            if bool_decide (name = "help") || bool_decide (name = "h")
            then (f, false, Some ErrHelp)
            else (f, false, Some (errNotDefined name))
          | Some boolValue =>
            (* special case: doesn't need an arg *)
            if hasValue then
              let '(f, ok) := boolValue_Set value f in
              if ok then (add_actual name f, true, None)
              else (f, false, Some (errInvalidBoolValue value name))
            else
              let '(f, ok) := boolValue_Set "true" f in
              if ok then (add_actual name f, true, None)
              else (f, false, Some (errInvalidBoolFlag name))
          | Some stringValue =>
            (* It must have a value, which might be the next argument. *)
            let '(hasValue, value, f) :=
              match hasValue, args f with
              | false, v :: rest' => (true, v, set_args rest' f)
              | _, _ => (hasValue, value, f)
              end in
            if negb hasValue then (f, false, Some (errNeedsArgument name))
            else (add_actual name (stringValue_Set value f), true, None)
          end
  end.

(** A seen flag consumed at least one argument: the measure of [Parse]. *)
Lemma parseOne_seen_shrinks f f' err :
  parseOne f = (f', true, err) → length (args f') < length (args f).
Proof.
  unfold parseOne. destruct (args f) as [|s rest] eqn:Hargs; [congruence|].
  repeat (case_match; simplify_eq/=; try congruence; try lia).
  all: unfold boolValue_Set in *; repeat (case_match; simplify_eq/=).
  all: intros; simplify_eq/=; lia.
Qed.

(** The loop of [FlagSet.Parse] under [ContinueOnError]: call
    [parseOne] until no flag is seen. *)
Equations? parseLoop (f : FlagSet) : FlagSet * option error
  by wf (length (args f)) lt :=
  parseLoop f with inspect (parseOne f) := {
    | exist _ (f', true, _) Heq => parseLoop f'
    | exist _ (f', false, err) Heq => (f', err) }.
Proof. eapply parseOne_seen_shrinks; eauto. Qed.

(** [FlagSet.Parse(arguments)] *)
Definition Parse (arguments : list string) (f : FlagSet) : FlagSet * option error :=
  parseLoop (set_args arguments (set_parsed true f)).

End flag.

(* ===================================================================== *)
(** ** main.go: the Config File Locator *)
(* ===================================================================== *)

Definition configFileOption : string := "config.file".
Definition configExpandENV : string := "config.expand-env".

(** The flag set [parseConfigFileParameter] builds before its loop. *)
Definition bootstrapFlagSet : flag.FlagSet :=
  flag.BoolVar configExpandENV false
    (flag.StringVar configFileOption "" flag.NewFlagSet).

(** The loop [for len(args) > 0 { _ = fs.Parse(args); args = args[1:] }]:
    one iteration, [None] when the loop condition fails. *)
Definition shiftStep (st : flag.FlagSet * list string)
  : option (flag.FlagSet * list string) :=
  let '(fs, args) := st in
  match args with
  | [] => None
  | _ :: rest => Some (fst (flag.Parse args fs), rest)
  end.

(** The loop itself, by recursion on the argument slice that each
    iteration shortens. *)
Fixpoint shiftAndRetry (fs : flag.FlagSet) (args : list string) : flag.FlagSet :=
  match args with
  | [] => fs
  | _ :: rest => shiftAndRetry (fst (flag.Parse args fs)) rest
  end.

(** The same loop run by iterating [shiftStep], for at most [fuel]
    iterations: [None] when the fuel runs out before the loop ends. *)
Fixpoint shiftLoop (fuel : nat) (st : flag.FlagSet * list string)
  : option flag.FlagSet :=
  match fuel with
  | 0 => None
  | S fuel' =>
    match shiftStep st with
    | None => Some st.1
    | Some st' => shiftLoop fuel' st'
    end
  end.

Definition parseConfigFileParameter (args : list string) : string * bool :=
  let fs := shiftAndRetry bootstrapFlagSet args in
  (flag.strVar fs, flag.boolVar fs).

(* ===================================================================== *)
(** ** strings and os: splitting, the environment, [os.Expand] *)
(* ===================================================================== *)

Module strings.

(** [strings.IndexByte(s, c)]: the index of the first [c], if any. *)
Fixpoint IndexByte (s : string) (c : ascii) : option nat :=
  match s with
  | EmptyString => None
  | String b t => if bool_decide (b = c) then Some 0 else S <$> IndexByte t c
  end.

(** [strings.SplitN(s, sep, 2)] for a separator of one byte: [s] cut at
    the first separator, or [s] alone when it holds none. *)
Definition SplitN2 (s : string) (sep : ascii) : list string :=
  match IndexByte s sep with
  | Some k => [sliceTo k s; sliceFrom (k + 1) s]
  | None => [s]
  end.

End strings.

Module os.

(** The process environment: the variables that are set.  [os.Getenv]
    returns the empty string for a variable that is not, and for the
    empty key, which names no variable. *)
Definition Getenv (env : gmap string string) (key : string) : string :=
  if bool_decide (key = "") then "" else default "" (env !! key).

(** [isShellSpecialVar]: the character names a special shell variable. *)
Definition isShellSpecialVar (c : ascii) : bool :=
  bool_decide (c ∈ ["*"; "#"; "$"; "@"; "!"; "?"; "-"; "0"; "1"; "2"; "3";
                    "4"; "5"; "6"; "7"; "8"; "9"]%char).

(** [isAlphaNum]: an ASCII letter, digit or underscore. *)
Definition isAlphaNum (c : ascii) : bool :=
  bool_decide (c = "_"%char)
  || (Ascii.leb "0" c && Ascii.leb c "9")
  || (Ascii.leb "a" c && Ascii.leb c "z")
  || (Ascii.leb "A" c && Ascii.leb c "Z").

(** [p(s[j])], false out of range. *)
Definition byteSat (p : ascii → bool) (s : string) (j : nat) : bool :=
  match byteAt s j with
  | Some b => p b
  | None => false
  end.

(** The loop [for i := 1; i < len(s); i++] of [getShellName] that scans
    to the closing brace; [n] counts the iterations left. *)
Fixpoint scanBrace (n i : nat) (s : string) : string * nat :=
  match n with
  | 0 => ("", 1)                      (* Bad syntax; eat "${" *)
  | S n' =>
    if byteIs s i "}" then
      if (i =? 1)%nat then ("", 2)    (* Bad syntax; eat "${}" *)
      else (slice 1 i s, i + 1)
    else scanBrace n' (S i) s
  end.

(** The loop [for i = 0; i < len(s) && isAlphaNum(s[i]); i++] of
    [getShellName]; the result is the final [i]. *)
Fixpoint scanAlphaNum (n i : nat) (s : string) : nat :=
  match n with
  | 0 => i
  | S n' => if byteSat isAlphaNum s i then scanAlphaNum n' (S i) s else i
  end.

(** [getShellName(s)]: the name that begins [s] and the number of bytes
    consumed to extract it.  [s] is not empty. *)
Definition getShellName (s : string) : string * nat :=
  if byteIs s 0 "{" then
    if (2 <? len s)%nat && byteSat isShellSpecialVar s 1 && byteIs s 2 "}"
    then (slice 1 2 s, 3)
    else scanBrace (len s - 1) 1 s
  else if byteSat isShellSpecialVar s 0 then (slice 0 1 s, 1)
  else let i := scanAlphaNum (len s) 0 s in (sliceTo i s, i).

(** What one placeholder adds to the buffer of [Expand]: nothing for
    invalid syntax, the dollar itself when no name follows it, the
    mapping of the name otherwise. *)
Definition expansion (mapping : string → string) (name : string) (w : nat) : string :=
  if bool_decide (name = "") && (0 <? w)%nat then ""
  else if bool_decide (name = "") then "$"
  else mapping name.

(** The loop [for j := 0; j < len(s); j++] of [os.Expand], started at [j]
    with the variables [i] and [buf] ([None] for the nil slice). *)
Equations? expandLoop (s : string) (mapping : string → string)
    (j i : nat) (buf : option string) : string by wf (len s - j) lt :=
  expandLoop s mapping j i buf with inspect (j <? len s)%nat := {
    | exist _ false _ =>
      match buf with
      | None => s
      | Some b => b ++ sliceFrom i s
      end
    | exist _ true Hlt =>
      if byteIs s j "$" && (j + 1 <? len s)%nat then
        let buf := default "" buf ++ slice i j s in
        let r := getShellName (sliceFrom (j + 1) s) in
        let buf := buf ++ expansion mapping r.1 r.2 in
        let j := j + r.2 in
        expandLoop s mapping (j + 1) (j + 1) (Some buf)
      else expandLoop s mapping (j + 1) i buf }.
Proof.
  all: apply Nat.ltb_lt in Hlt; lia.
Qed.

(** [os.Expand(s, mapping)] *)
Definition Expand (s : string) (mapping : string → string) : string :=
  expandLoop s mapping 0 0 None.

End os.

(* ===================================================================== *)
(** ** main.go: the Environment Expander *)
(* ===================================================================== *)

(** The mapping [expandEnv] hands to [os.Expand]. *)
Definition envMapping (env : gmap string string) (key : string) : string :=
  let keyAndDefault := strings.SplitN2 key ":" in
  let key := nth 0 keyAndDefault "" in
  let v := os.Getenv env key in
  if bool_decide (v = "") && (length keyAndDefault =? 2)%nat
  then nth 1 keyAndDefault ""   (* Set value to the default. *)
  else v.

Definition expandEnv (env : gmap string string) (config : string) : string :=
  os.Expand config (envMapping env).

(* ===================================================================== *)
(** ** crypto/sha256: the digest of the fingerprint *)
(* ===================================================================== *)

Module sha256.

(** A [uint32] is a number below [2^32]. *)
Definition mask32 : N := 0xffffffff.

(** Addition of [uint32], which wraps around. *)
Definition add32 (x y : N) : N := N.land (x + y) mask32.

(** [^x] *)
Definition not32 (x : N) : N := N.lxor x mask32.

(** [bits.RotateLeft32(x, -k)]: rotation to the right by [k] bits. *)
Definition rotr (k x : N) : N :=
  N.lor (N.shiftr x k) (N.land (N.shiftl x (32 - k)) mask32).

(** The constants of the package are the first 32 bits of the fractional
    parts of roots of the first primes: square roots of the first 8 for
    the initial value [init0 .. init7] of the digest, cube roots of the
    first 64 for the table [_K].  They are computed here from that
    definition. *)
Definition isPrime (n : N) : bool :=
  (1 <? n)%N
  && forallb (λ d, negb (n mod d =? 0)%N) (N.of_nat <$> seq 2 (N.to_nat n - 2)).

Definition primes (k : nat) : list N :=
  take k (List.filter isPrime (N.of_nat <$> seq 2 310)).

(** The largest [r] below [2^n] with [r^e <= x], one bit at a time. *)
Fixpoint rootBits (e : N) (n : nat) (r x : N) : N :=
  match n with
  | 0 => r
  | S n' =>
    let r' := N.lor r (N.shiftl 1 (N.of_nat n')) in
    if (r' ^ e <=? x)%N then rootBits e n' r' x else rootBits e n' r x
  end.

Definition fracRoot (e p : N) : N :=
  N.land (rootBits e 40 0 (N.shiftl p (32 * e))) mask32.

Definition init : list N := Eval vm_compute in fracRoot 2 <$> primes 8.

Definition _K : list N := Eval vm_compute in fracRoot 3 <$> primes 64.

(** The bytes of a string, and back. *)
Definition bytes (s : string) : list N := N_of_ascii <$> list_ascii_of_string s.
Definition ofBytes (l : list N) : string := string_of_list_ascii (ascii_of_N <$> l).

(** [binary.BigEndian]: the [n] bytes of [x], the most significant first. *)
Fixpoint bigEndian (n : nat) (x : N) : list N :=
  match n with
  | 0 => []
  | S n' => N.land (N.shiftr x (8 * N.of_nat n')) 0xff :: bigEndian n' x
  end.

(** The padding of [checkSum]: a 1 bit and 0 bits until 56 bytes mod 64,
    then the length in bits. *)
Definition padding (len : nat) : list N :=
  let t := if (len mod 64 <? 56)%nat then 56 - len mod 64 else 64 + 56 - len mod 64 in
  ((0x80%N :: replicate (t - 1) 0%N) ++ bigEndian 8 (N.shiftl (N.of_nat len) 3))%list.

(** [w[i]] for [i < 16]: four bytes of the block, big endian. *)
Fixpoint words (p : list N) : list N :=
  match p with
  | b0 :: b1 :: b2 :: b3 :: p' =>
    N.lor (N.lor (N.lor (N.shiftl b0 24) (N.shiftl b1 16)) (N.shiftl b2 8)) b3 :: words p'
  | _ => []
  end.

(** [w[i]] for [16 <= i < 64], appended to [w], [n] of them. *)
Fixpoint schedule (n : nat) (w : list N) : list N :=
  match n with
  | 0 => w
  | S n' =>
    let i := length w in
    let v1 := nth (i - 2) w 0%N in
    let t1 := N.lxor (N.lxor (rotr 17 v1) (rotr 19 v1)) (N.shiftr v1 10) in
    let v2 := nth (i - 15) w 0%N in
    let t2 := N.lxor (N.lxor (rotr 7 v2) (rotr 18 v2)) (N.shiftr v2 3) in
    schedule n' (w ++ [add32 (add32 (add32 t1 (nth (i - 7) w 0%N)) t2) (nth (i - 16) w 0%N)])%list
  end.

(** One round of the compression. *)
Definition round (st : list N) (kw : N * N) : list N :=
  match st with
  | [a; b; c; d; e; f; g; h] =>
    let t1 := add32 (add32 (add32 (add32 h
                (N.lxor (N.lxor (rotr 6 e) (rotr 11 e)) (rotr 25 e)))
                (N.lxor (N.land e f) (N.land (not32 e) g))) kw.1) kw.2 in
    let t2 := add32 (N.lxor (N.lxor (rotr 2 a) (rotr 13 a)) (rotr 22 a))
                    (N.lxor (N.lxor (N.land a b) (N.land a c)) (N.land b c)) in
    [add32 t1 t2; a; b; c; add32 d t1; e; f; g]
  | _ => st
  end.

(** [blockGeneric] on one chunk of 64 bytes. *)
Definition block (h : list N) (p : list N) : list N :=
  let w := schedule 48 (words p) in
  zip_with add32 h (foldl round h (zip _K w)).

(** [blockGeneric]: the loop [for len(p) >= chunk], chunk after chunk. *)
Equations? blocks (h p : list N) : list N by wf (length p) lt :=
  blocks h p with inspect (length p <? 64)%nat := {
    | exist _ true _ => h
    | exist _ false Hlen => blocks (block h (take 64 p)) (drop 64 p) }.
Proof. apply Nat.ltb_ge in Hlen. rewrite length_drop. lia. Qed.

(** [sha256.Sum256(data)]: the 32 bytes of the digest. *)
Definition Sum256 (data : string) : string :=
  let p := (bytes data ++ padding (String.length data))%list in
  ofBytes (mjoin (bigEndian 4 <$> blocks init p)).

End sha256.

(* ===================================================================== *)
(** ** errors, fmt, prometheus: what the loader uses of them *)
(* ===================================================================== *)

Module errors.

(** A Go [error] value of this program: the failure of [os.ReadFile] (a
    path error), a failure reported by an external package, or an error
    wrapped with a message by [errors.Wrap]. *)
Inductive error :=
| PathError (Op Path Err : string)
| External (msg : string)
| withMessage (cause : error) (msg : string).

(** [err.Error()] *)
Fixpoint Error (e : error) : string :=
  match e with
  | PathError op path err => op ++ " " ++ path ++ ": " ++ err
  | External msg => msg
  | withMessage cause msg => msg ++ ": " ++ Error cause
  end.

(** [errors.Wrap(err, message)] for a non-nil [err]. *)
Definition Wrap (err : error) (message : string) : error := withMessage err message.

(** [errors.Cause(err)]: the innermost error. *)
Fixpoint Cause (e : error) : error :=
  match e with
  | withMessage cause _ => Cause cause
  | _ => e
  end.

End errors.

Module fmt.

(** One hexadecimal digit, lower case. *)
Definition hexDigit (n : nat) : ascii :=
  nth n ["0"; "1"; "2"; "3"; "4"; "5"; "6"; "7"; "8"; "9";
         "a"; "b"; "c"; "d"; "e"; "f"]%char "0"%char.

(** [fmt.Sprintf("%x", b)] for a byte array: two digits for each byte. *)
Fixpoint Sprintf_x (b : string) : string :=
  match b with
  | EmptyString => EmptyString
  | String c t =>
    let n := nat_of_ascii c in
    String (hexDigit (n / 16)) (String (hexDigit (n mod 16)) (Sprintf_x t))
  end.

End fmt.

Module prometheus.

(** The children of a gauge vector: the value of the gauge for each list
    of label values that was used.  The vector [configHash] has the one
    label [sha256], and the only value the program sets is [1]. *)
Abbreviation GaugeVec := (gmap (list string) Z).

(** [v.Reset()]: deletes all metrics of the vector. *)
Definition GaugeVec_Reset (v : GaugeVec) : GaugeVec := ∅.

(** [v.WithLabelValues(lvs...).Set(x)] *)
Definition GaugeVec_Set (lvs : list string) (x : Z) (v : GaugeVec) : GaugeVec :=
  <[lvs := x]> v.

End prometheus.

(* ===================================================================== *)
(** ** gopkg.in/yaml.v2: the decoder of [UnmarshalStrict] *)
(* ===================================================================== *)

(** The decoder of the package (decode.go, as of its version 2.4) walks
    the tree of nodes of a document along the type of the value it decodes
    into.  The walk, the type errors it collects, its failures and the
    strict checks are modelled; the parser, the rules for scalars, the
    [UnmarshalYAML] methods of types, and the decoding into maps and
    interfaces, which depends on the values stored, are left to the class
    [Library].  The values stored are not modelled. *)
#[local] Set Warnings "-register-all".

Module yaml.

(** The nodes the parser builds ([node] in decode.go), with the fields the
    decoder reads.  The keys and the values of a mapping alternate in its
    children and are paired here; the parser records no tag for a mapping
    or a sequence; an alias holds the node of its anchor. *)
Inductive node :=
| documentNode (line : nat) (children : list node)
| mappingNode (line : nat) (children : list (node * node))
| sequenceNode (line : nat) (children : list node)
| scalarNode (line : nat) (tag value : string) (implicit : bool)
| aliasNode (line : nat) (value : string) (alias : node).

Definition line (n : node) : nat :=
  match n with
  | documentNode l _ | mappingNode l _ | sequenceNode l _
  | scalarNode l _ _ _ | aliasNode l _ _ => l
  end.

(** The type of the value decoded into ([reflect.Type]), as the decoder
    looks at it: its name, its kind, what [getStructInfo] gives for a
    struct (the fields by their keys, those of inlined structs among them,
    and the element type of the inline map, if there is one), and whether
    a pointer to it is an [Unmarshaler]. *)
Inductive type :=
| Struct (name : string) (fields : list (string * type)) (inlineMap : option type)
| Ptr (name : string) (elem : type)
| Slice (name : string) (elem : type)
| Array (name : string) (len : nat) (elem : type)
| MapSlice (name : string)
| Map (name : string)
| Interface (name : string)
| Basic (name : string)
| Custom (name : string).

Definition typeName (t : type) : string :=
  match t with
  | Struct s _ _ | Ptr s _ | Slice s _ | Array s _ _ | MapSlice s | Map s
  | Interface s | Basic s | Custom s => s
  end.

Definition stringType : type := Basic "string".
Definition ifaceType : type := Interface "interface {}".
Definition mapItemType : type :=
  Struct "yaml.MapItem" [("key", ifaceType); ("value", ifaceType)] None.

(** The counters of the decoder that guard against excessive aliasing. *)
Record counts := mkCounts { decodeCount : nat; aliasCount : nat; aliasDepth : nat }.

(** What the walk has to know of a value it has stored: the string, for a
    string, and the keys of the inline map, for a struct that has one. *)
Record stored := mkStored { str : string; keys : list string }.

Definition noValue : stored := mkStored "" [].

(** How a call of the decoder ends: by a failure ([fail] and [failf],
    the panic that [handleErr] turns into the error returned), or with
    its result, the type errors it has added to [d.terrors], and the
    counters. *)
Inductive result :=
| failed (err : string)
| finished (good : bool) (terrors : list string) (c : counts) (out : stored).

(** How [d.scalar] ends; it does not touch the counters. *)
Inductive leaf :=
| leafFailed (err : string)
| leafDone (good : bool) (terrors : list string) (s : string).

Definition ofLeaf (l : leaf) (c : counts) : result :=
  match l with
  | leafFailed err => failed err
  | leafDone good terrors s => finished good terrors c (mkStored s [])
  end.

(** What the parser gives for the bytes of a document: a failure, no
    node, or the node of the document.  A document in which the value of
    an anchor holds an alias of that anchor has no tree of nodes; for it
    the error the package returns is taken as it is. *)
Inductive parsed :=
| parseFailed (err : string)          (* a syntax error, or an unknown anchor *)
| noDocument                          (* the end of the stream: a nil node *)
| parsedDocument (n : node)
| selfReference (err : option errors.error).

(** The parts of the package that are not modelled. *)
Class Library := {
  (* newParser(in).parse() *)
  parse : string → parsed;
  (* d.scalar(n, out): the rules that resolve and convert a scalar *)
  scalar : node → type → leaf;
  (* d.callUnmarshaler(n, u): the UnmarshalYAML method of the type *)
  callUnmarshaler : node → type → counts → result;
  (* d.mapping(n, out) for a map, an interface and a MapSlice, which
     depends on the values stored *)
  mappingValue : node → type → counts → result;
  (* float64(aliasCount)/float64(decodeCount) > allowedAliasRatio(decodeCount) *)
  aliasRatioExceeded : nat → nat → bool;
  (* fmt.Sprintf("%#v", key) *)
  goSyntax : string → string
}.

(** [strings.Join(elems, sep)] *)
Fixpoint Join (elems : list string) (sep : string) : string :=
  match elems with
  | [] => ""
  | [e] => e
  | e :: rest => e ++ sep ++ Join rest sep
  end.

Definition lineFeed : string := String (ascii_of_nat 10) "".

Section decoder.
Context `{Library}.

(** The decoder's flag. *)
Context (strict : bool).

Definition yaml_MERGE_TAG : string := "tag:yaml.org,2002:merge".
Definition yaml_NULL_TAG : string := "tag:yaml.org,2002:null".

(** [isMerge(n)] *)
Definition isMerge (n : node) : bool :=
  match n with
  | scalarNode _ tag value implicit =>
    bool_decide (value = "<<") && (implicit || bool_decide (tag = yaml_MERGE_TAG))
  | _ => false
  end.

(** The test for a null at the start of [d.prepare]. *)
Definition isNull (n : node) : bool :=
  match n with
  | scalarNode _ tag value implicit =>
    bool_decide (tag = yaml_NULL_TAG)
    || bool_decide (tag = "")
       && (bool_decide (value = "null") || bool_decide (value = "~")
           || bool_decide (value = "") && implicit)
  | _ => false
  end.

(** The loop of [d.prepare]: pointers are dereferenced until the value is
    an [Unmarshaler] or no pointer. *)
Fixpoint deref (t : type) : type :=
  match t with
  | Ptr _ elem => deref elem
  | _ => t
  end.

(** [d.terror(n, tag, out)] for a mapping and a sequence. *)
Definition terror (n : node) (shortTag : string) (out : type) : string :=
  "line " ++ pretty (line n + 1) ++ ": cannot unmarshal " ++ shortTag
  ++ " into " ++ typeName out.

Definition fieldNotFound (key : node) (name : string) (out : type) : string :=
  "line " ++ pretty (line key + 1) ++ ": field " ++ name
  ++ " not found in type " ++ typeName out.

Definition fieldAlreadySet (key : node) (name : string) (out : type) : string :=
  "line " ++ pretty (line key + 1) ++ ": field " ++ name
  ++ " already set in type " ++ typeName out.

Definition keyAlreadySet (value : node) (name : string) : string :=
  "line " ++ pretty (line value + 1) ++ ": key " ++ goSyntax name
  ++ " already set in map".

Definition failWantMap : result :=
  failed "yaml: map merge requires map or sequence of maps as the value".

(** The start of [d.unmarshal]: the counters and their guard. *)
Definition entered (c : counts) : counts :=
  mkCounts (S (decodeCount c))
           (if bool_decide (0 < aliasDepth c) then S (aliasCount c) else aliasCount c)
           (aliasDepth c).

Definition excessiveAliasing (c : counts) : bool :=
  bool_decide (100 < aliasCount c) && bool_decide (1000 < decodeCount c)
  && aliasRatioExceeded (aliasCount c) (decodeCount c).

(** [k] after [r], unless [r] failed; the type errors add up. *)
Definition next (r : result) (k : bool → counts → stored → result) : result :=
  match r with
  | failed err => failed err
  | finished good terrors c out =>
    match k good c out with
    | failed err => failed err
    | finished good' terrors' c' out' => finished good' (terrors ++ terrors') c' out'
    end
  end.

Section walk.
(** [d.unmarshal], for the nodes below the one at hand. *)
Context (unmarshal : node → type → counts → result).

(** [d.document(n, out)] *)
Definition document (children : list node) (out : type) (c : counts) : result :=
  match children with
  | [child] => next (unmarshal child out c) (λ _ c _, finished true [] c noValue)
  | _ => finished false [] c noValue
  end.

(** [d.alias(n, out)] *)
Definition alias (target : node) (out : type) (c : counts) : result :=
  next (unmarshal target out
          (mkCounts (decodeCount c) (aliasCount c) (S (aliasDepth c))))
    (λ good c v,
       finished good []
         (mkCounts (decodeCount c) (aliasCount c) (pred (aliasDepth c))) v).

(** The test of [d.merge] on a node that is to be merged. *)
Definition mergeable (n : node) : bool :=
  match n with
  | mappingNode _ _ => true
  | aliasNode _ _ (mappingNode _ _) => true
  | _ => false
  end.

(** [d.merge(n, out)]: the mapping, or the mappings of the sequence from
    the last to the first, are decoded into [out]. *)
Definition merge (n : node) (out : type) (inlineKeys : list string) (c : counts)
  : result :=
  match n with
  | mappingNode _ _ => unmarshal n out c
  | aliasNode _ _ _ => if mergeable n then unmarshal n out c else failWantMap
  | sequenceNode _ items =>
    (fix backwards (items : list node) (c : counts) {struct items} : result :=
       match items with
       | [] => finished true [] c (mkStored "" inlineKeys)
       | ni :: items =>
         next (backwards items c)
           (λ _ c _, if mergeable ni then unmarshal ni out c else failWantMap)
       end) items c
  | _ => failWantMap
  end.

(** The loop of [d.mappingStruct(n, out)] over the keys and values, with
    the fields that are set and the keys of the inline map. *)
Fixpoint mappingStruct (out : type) (fields : list (string * type))
    (inlineMap : option type) (l : list (node * node)) (c : counts)
    (doneFields inlineKeys : list string) {struct l} : result :=
  match l with
  | [] => finished true [] c (mkStored "" inlineKeys)
  | (ni, v) :: l =>
    let continue c doneFields inlineKeys :=
      mappingStruct out fields inlineMap l c doneFields inlineKeys in
    if isMerge ni then
      next (merge v out inlineKeys c) (λ _ c merged, continue c doneFields (keys merged))
    else
      next (unmarshal ni stringType c)
        (λ good c name,
           if negb good then continue c doneFields inlineKeys
           else
             match list_find (λ f, f.1 = str name) fields with
             | Some (_, (_, field)) =>
               if strict && bool_decide (str name ∈ doneFields) then
                 next (finished true [fieldAlreadySet ni (str name) out] c noValue)
                   (λ _ c _, continue c doneFields inlineKeys)
               else
                 next (unmarshal v field c)
                   (λ _ c _,
                      continue c
                        (if strict then str name :: doneFields else doneFields)
                        inlineKeys)
             | None =>
               match inlineMap with
               | Some elemType =>
                 next (unmarshal v elemType c)
                   (λ _ c _,
                      (* d.setMapIndex(n.children[i+1], inlineMap, name, value) *)
                      if strict && bool_decide (str name ∈ inlineKeys) then
                        next (finished true [keyAlreadySet v (str name)] c noValue)
                          (λ _ c _, continue c doneFields inlineKeys)
                      else continue c doneFields (str name :: inlineKeys))
               | None =>
                 if strict then
                   next (finished true [fieldNotFound ni (str name) out] c noValue)
                     (λ _ c _, continue c doneFields inlineKeys)
                 else continue c doneFields inlineKeys
               end
             end)
  end.

(** The loop of [d.sequence(n, out)] over the elements. *)
Fixpoint elements (et : type) (l : list node) (c : counts) {struct l} : result :=
  match l with
  | [] => finished true [] c noValue
  | child :: l => next (unmarshal child et c) (λ _ c _, elements et l c)
  end.

End walk.

(** [d.unmarshal(n, out)], with [d.prepare], [d.mapping] and
    [d.sequence]. *)
Fixpoint unmarshal (n : node) (out : type) (c : counts) {struct n} : result :=
  let c := entered c in
  if excessiveAliasing c then failed "yaml: document contains excessive aliasing"
  else
    match n with
    | documentNode _ children => document unmarshal children out c
    | aliasNode _ _ target => alias unmarshal target out c
    | scalarNode _ _ _ _ =>
      if isNull n then ofLeaf (scalar n out) c
      else
        match deref out with
        | Custom _ => callUnmarshaler n (deref out) c
        | out => ofLeaf (scalar n out) c
        end
    | mappingNode _ children =>
      match deref out with
      | Custom _ => callUnmarshaler n (deref out) c
      | Struct _ fields inlineMap =>
        mappingStruct unmarshal (deref out) fields inlineMap children c [] []
      | MapSlice _ | Map _ | Interface _ => mappingValue n (deref out) c
      | out => finished false [terror n "!!map" out] c noValue
      end
    | sequenceNode _ children =>
      match deref out with
      | Custom _ => callUnmarshaler n (deref out) c
      | Slice _ et => elements unmarshal et children c
      | Array _ len et =>
        if bool_decide (length children = len) then elements unmarshal et children c
        else failed ("yaml: invalid array: want " ++ pretty len
                     ++ " elements but got " ++ pretty (length children))
      | MapSlice _ => elements unmarshal mapItemType children c
      | Interface _ => elements unmarshal ifaceType children c
      | out => finished false [terror n "!!seq" out] c noValue
      end
    end.

(** The [Error] method of [TypeError]. *)
Definition TypeError_Error (terrors : list string) : string :=
  "yaml: unmarshal errors:" ++ lineFeed ++ "  " ++ Join terrors (lineFeed ++ "  ").

(** [unmarshal(in, out, strict)], for an [out] that points to a value of
    the type [schema]: the error returned. *)
Definition unmarshalError (schema : type) (input : string) : option errors.error :=
  match parse input with
  | parseFailed err => Some (errors.External err)
  | selfReference err => err
  | noDocument => None
  | parsedDocument n =>
    match unmarshal n schema (mkCounts 0 0 0) with
    | failed err => Some (errors.External err)
    | finished _ [] _ _ => None
    | finished _ terrors _ _ => Some (errors.External (TypeError_Error terrors))
    end
  end.

End decoder.

End yaml.

(* ===================================================================== *)
(** ** The process, its world, and the external collaborators *)
(* ===================================================================== *)

(** What the program uses and does not own: the configuration structure
    of Cortex with its registration of defaults, and the strict YAML
    decoder for it. *)
Class External := {
  Config : Type;                      (* cortex.Config *)
  zeroConfig : Config;                (* var cfg cortex.Config *)
  (* flagext.RegisterFlags(&cfg): sets the defaults; the names and usages
     of the flags it registers on flag.CommandLine *)
  RegisterFlags : Config → Config * list (string * string);
  (* yaml.UnmarshalStrict(buf, cfg): the configuration after the call and
     the error *)
  UnmarshalStrict : string → Config → Config * option errors.error
}.

(** The configuration of Cortex as the decoder of the package sees it: its
    type, and the configuration after a document was decoded into it,
    which is not modelled. *)
Class Target := {
  value : Type;                                   (* cortex.Config *)
  zero : value;
  register : value → value * list (string * string);
  schema : yaml.type;                             (* reflect.TypeOf(cfg).Elem() *)
  store : string → value → value
}.

(** The collaborators with the decoder of the package. *)
Definition yamlExternal `{yaml.Library} `{Target} : External := {|
  Config := value;
  zeroConfig := zero;
  RegisterFlags := register;
  UnmarshalStrict := λ doc cfg, (store doc cfg, yaml.unmarshalError true schema doc)
|}.

(** The steps of a load, in the order they happen. *)
Inductive event :=
| evReadFile (name : string)
| evGaugeReset
| evGaugeSet (lvs : list string) (x : Z)
| evUnmarshal (doc : string).

(** The state outside the program text: the arguments, the files (a file
    holds its bytes, or the operation of [os.ReadFile] that fails on it,
    ["open"] or ["read"], with its error), the environment, the
    process-wide test-mode flag, the gauge vector [configHash], the flags
    registered on [flag.CommandLine] with their usages, in the order of
    their registration, what [main] wrote to [os.Stderr], and the steps
    taken.  What the flag package and the runtime print when the program
    panics is not part of [stderr]: a panic is an outcome of [main]. *)
Record World := mkWorld {
  osArgs : list string;                     (* os.Args[1:] *)
  files : gmap string (string + string * string);
  environ : gmap string string;
  testMode : bool;
  configHash : prometheus.GaugeVec;
  commandLine : list (string * string);
  stderr : string;
  trace : list event
}.

Definition set_configHash (v : prometheus.GaugeVec) (w : World) : World :=
  mkWorld (osArgs w) (files w) (environ w) (testMode w) v
          (commandLine w) (stderr w) (trace w).
Definition set_commandLine (c : list (string * string)) (w : World) : World :=
  mkWorld (osArgs w) (files w) (environ w) (testMode w) (configHash w)
          c (stderr w) (trace w).
Definition set_stderr (s : string) (w : World) : World :=
  mkWorld (osArgs w) (files w) (environ w) (testMode w) (configHash w)
          (commandLine w) s (trace w).
Definition log (e : event) (w : World) : World :=
  mkWorld (osArgs w) (files w) (environ w) (testMode w) (configHash w)
          (commandLine w) (stderr w) (trace w ++ [e]).

(** Computations in the world. *)
Definition M (A : Type) : Type := World → A * World.

Definition ret {A} (a : A) : M A := λ w, (a, w).
Definition bind {A B} (c : M A) (k : A → M B) : M B :=
  λ w, let '(a, w') := c w in k a w'.

Notation "'do' x <- c ; k" := (bind c (λ x, k))
  (at level 10, x name, c at level 100, k at level 200).
Notation "c ;; k" := (bind c (λ _, k))
  (at level 100, k at level 200, right associativity).

(** [os.ReadFile(name)]: the bytes of the file, or the [*PathError] of the
    operation that failed, the open or the read.  The empty name is the
    name of no file. *)
Definition ReadFile (name : string) : M (string + errors.error) :=
  λ w,
    let r :=
      if bool_decide (name = "") then
        inr (errors.PathError "open" name "no such file or directory")
      else
        match files w !! name with
        | Some (inl buf) => inl buf
        | Some (inr (op, errno)) => inr (errors.PathError op name errno)
        | None => inr (errors.PathError "open" name "no such file or directory")
        end in
    (r, log (evReadFile name) w).

Definition configHash_Reset : M unit :=
  λ w, (tt, log evGaugeReset (set_configHash (prometheus.GaugeVec_Reset (configHash w)) w)).

Definition configHash_Set (lvs : list string) (x : Z) : M unit :=
  λ w, (tt, log (evGaugeSet lvs x)
              (set_configHash (prometheus.GaugeVec_Set lvs x (configHash w)) w)).

(** [fmt.Fprintf(os.Stderr, ...)] with the formatted text. *)
Definition Fprintf_Stderr (text : string) : M unit :=
  λ w, (tt, set_stderr (stderr w ++ text) w).

(** The panics of [flag.FlagSet.Var], through which every flag is
    registered: for a name that begins with a dash, for a name that holds
    an equals sign, and for a name that is registered already. *)
Inductive panic :=
| flagBeginsWithDash (name : string)
| flagContainsEquals (name : string)
| flagRedefined (name : string).

(** [flag.CommandLine.Var(value, name, usage)]: the panic, or the flag
    registered. *)
Definition CommandLine_Var (name usage : string) : M (option panic) :=
  λ w,
    if String.prefix "-" name then (Some (flagBeginsWithDash name), w)
    else
      match strings.IndexByte name "=" with
      | Some _ => (Some (flagContainsEquals name), w)
      | None =>
        (* _, alreadythere := f.formal[name] *)
        if bool_decide (name ∈ (commandLine w).*1)
        then (Some (flagRedefined name), w)
        else (None, set_commandLine (commandLine w ++ [(name, usage)]) w)
      end.

(** The registrations of a list of flags, one after the other, up to the
    first that panics. *)
Fixpoint CommandLine_Vars (flags : list (string * string)) : M (option panic) :=
  match flags with
  | [] => ret None
  | (name, usage) :: rest =>
    do p <- CommandLine_Var name usage;
    match p with
    | Some p => ret (Some p)
    | None => CommandLine_Vars rest
    end
  end.

(* ===================================================================== *)
(** ** main.go: the Config Loader and the Bootstrap Orchestrator *)
(* ===================================================================== *)

(** [expandEnv(buf)] in the environment of the process. *)
Definition expandEnvM (buf : string) : M string :=
  λ w, (expandEnv (environ w) buf, w).

Definition unmarshalStrictM `{External} (buf : string) (cfg : Config)
  : M (Config * option errors.error) :=
  λ w, (UnmarshalStrict buf cfg, log (evUnmarshal buf) w).

(** [LoadConfig(filename, expandENV, cfg)]: the configuration after the
    call and the error returned. *)
Definition LoadConfig `{External} (filename : string) (expandENV : bool) (cfg : Config)
  : M (Config * option errors.error) :=
  do r <- ReadFile filename;
  match r with
  | inr err => ret (cfg, Some (errors.Wrap err "Error reading config file"))
  | inl buf =>
    (* create a sha256 hash of the config before expansion and expose it *)
    let hash := sha256.Sum256 buf in
    configHash_Reset ;;
    configHash_Set [fmt.Sprintf_x hash] 1 ;;
    do buf <- (if expandENV then expandEnvM buf else ret buf);
    do r <- unmarshalStrictM buf cfg;
    match r.2 with
    | Some err => ret (r.1, Some (errors.Wrap err "Error parsing config file"))
    | None => ret (r.1, None)
    end
  end.

(** How [main] ends: by returning, by [os.Exit(code)], or by a panic. *)
Inductive Outcome := returned | exited (code : Z) | panicked (p : panic).

(** [k] after the registration [c], unless [c] panicked. *)
Definition unlessPanic (c : M (option panic)) (k : M Outcome) : M Outcome :=
  do p <- c;
  match p with
  | Some p => ret (panicked p)
  | None => k
  end.

Notation "c ;;! k" := (unlessPanic c k)
  (at level 100, k at level 200, right associativity).

(** The line feed that ends the message of [main]. *)
Definition newline : string := String (ascii_of_nat 10) "".

(** [os.Args[1:]] *)
Definition Args : M (list string) := λ w, (osArgs w, w).

(** The package variable [testMode]. *)
Definition getTestMode : M bool := λ w, (testMode w, w).

(** [flagext.RegisterFlags(&cfg)]: the flags of the configuration are
    registered on [flag.CommandLine], which sets the defaults. *)
Definition registerFlagsM `{External} (cfg : Config) : M (Config + panic) :=
  let '(cfg', registered) := RegisterFlags cfg in
  do p <- CommandLine_Vars registered;
  ret (match p with
       | Some p => inr p
       | None => inl cfg'
       end).

(** The end of [main]: [flagext.IgnoredFlag] and [flag.CommandLine.Bool]
    register the two flags of the locator. *)
Definition ignoreBootstrapFlags : M Outcome :=
  (CommandLine_Var configFileOption "Configuration file to load.") ;;!
  (CommandLine_Var configExpandENV
     "Expands ${var} or $var in config according to the values of the environment variables.") ;;!
  ret returned.

Definition main `{External} : M Outcome :=
  do args <- Args;
  let '(configFile, expandENV) := parseConfigFileParameter args in
  (* This sets default values from flags to the config. *)
  do reg <- registerFlagsM zeroConfig;
  match reg with
  | inr p => ret (panicked p)
  | inl cfg =>
    if bool_decide (configFile ≠ "") then
      do r <- LoadConfig configFile expandENV cfg;
      match r.2 with
      | Some err =>
        Fprintf_Stderr ("error loading config from " ++ configFile ++ ": "
                        ++ errors.Error err ++ newline) ;;
        do test <- getTestMode;
        if test then ret returned else ret (exited 1)
      (* Ignore -config.file and -config.expand-env here *)
      | None => ignoreBootstrapFlags
      end
    else ignoreBootstrapFlags
  end.

(* ===================================================================== *)
(** ** The vocabulary of the properties *)
(* ===================================================================== *)

(** [mentions o t]: the argument [t], read as a flag token, names the
    option [o]: it is [-o], [--o], [-o=value] or [--o=value]. *)
Definition mentions (o t : string) : bool :=
  bool_decide (t = "-" ++ o) || bool_decide (t = "--" ++ o)
  || String.prefix ("-" ++ o ++ "=") t || String.prefix ("--" ++ o ++ "=") t.

(** No argument names the option [o]. *)
Definition unmentioned (o : string) (l : list string) : Prop :=
  Forall (λ t, mentions o t = false) l.

(** [dashes] is one of the two spellings of the leading dashes. *)
Definition isDashes (dashes : string) : Prop := dashes = "-" ∨ dashes = "--".

(** The byte [c] does not occur in [s]. *)
Definition noByte (c : ascii) (s : string) : Prop := strings.IndexByte s c = None.

(** Every byte of [s] satisfies [p]. *)
Fixpoint allSat (p : ascii → bool) (s : string) : bool :=
  match s with
  | EmptyString => true
  | String c t => p c && allSat p t
  end.

(** A name that [$name] can spell: letters, digits and underscores, the
    first of them not a digit. *)
Definition bareName (name : string) : Prop :=
  name ≠ "" ∧ allSat os.isAlphaNum name = true
  ∧ os.byteSat os.isShellSpecialVar name 0 = false.

(** The value a placeholder stands for: the value of the variable when it
    is set and not empty, else the default when one was given, else the
    empty string. *)
Definition resolve (env : gmap string string) (name : string) (dflt : option string)
  : string :=
  if bool_decide (os.Getenv env name = "") then default "" dflt
  else os.Getenv env name.

(** What [os.ReadFile] returns in a world. *)
Definition readResult (w : World) (name : string) : string + errors.error :=
  (ReadFile name w).1.

(** The bytes handed to the decoder. *)
Definition document (w : World) (expandENV : bool) (buf : string) : string :=
  if expandENV then expandEnv (environ w) buf else buf.

(** The label of a file's fingerprint. *)
Definition fingerprint (buf : string) : list string :=
  [fmt.Sprintf_x (sha256.Sum256 buf)].

(** The flags [main] registers at its end. *)
Definition ignoredFlags (w : World) : World :=
  set_commandLine
    (commandLine w ++
     [(configFileOption, "Configuration file to load.");
      (configExpandENV,
       "Expands ${var} or $var in config according to the values of the environment variables.")])
    w.

(** A name that [flag.FlagSet.Var] accepts. *)
Definition flagName (name : string) : Prop :=
  String.prefix "-" name = false ∧ noByte "=" name.

(** The flags can be registered on the command line of [w], one after the
    other: their names are names of flags, differ from each other, and
    none of them is registered in [w]. *)
Definition registrable (w : World) (flags : list (string * string)) : Prop :=
  Forall flagName flags.*1 ∧ NoDup flags.*1
  ∧ ∀ name, name ∈ flags.*1 → name ∉ (commandLine w).*1.

(** The names registered when [main] comes to its end: those of the world
    it starts in and those of the configuration. *)
Definition registeredNames `{External} (w : World) : list string :=
  (commandLine w).*1 ++ (RegisterFlags zeroConfig).2.*1.

(** Nothing else has registered a flag of the locator. *)
Definition bootstrapFlagsFresh `{External} (w : World) : Prop :=
  (configFileOption ∉ registeredNames w) ∧ (configExpandENV ∉ registeredNames w).

(** An instance of the collaborators for the examples below: the
    configuration is the last document decoded, the decoder rejects the
    documents that start with the key [bogus], and no defaults are
    registered. *)
#[local] Instance exampleExternal : External := {|
  Config := string;
  zeroConfig := "";
  RegisterFlags := λ cfg, (cfg, []);
  UnmarshalStrict := λ doc cfg,
    if String.prefix "bogus:" doc
    then (cfg, Some (errors.External "yaml: unmarshal errors: field bogus not found"))
    else (doc, None)
|}.

Section strictness.
Import yaml.
Context `{Library}.

(** The name a key of a mapping gives to [d.mappingStruct]: the string
    [d.scalar] stores for a scalar that is no merge key. *)
Definition keyName (key : node) : option string :=
  match key with
  | scalarNode _ _ _ _ =>
    if isMerge key then None
    else
      match scalar key stringType with
      | leafDone true _ s => Some s
      | _ => None
      end
  | _ => None
  end.

(** [unknownField out n]: the node [n], decoded into a value of the type
    [out], holds a field that the type does not have: a mapping decoded
    into a struct without inline map has a key that names none of its
    fields.  The mapping is [n] itself, or is reached from [n] through
    fields of structs, merged mappings, elements of slices and arrays,
    pointers and aliases. *)
Inductive unknownField : type → node → Prop :=
| unknown_key out name fields ln children key value s :
    deref out = Struct name fields None →
    (key, value) ∈ children → keyName key = Some s → s ∉ fields.*1 →
    unknownField out (mappingNode ln children)
| unknown_in_field out name fields inlineMap ln children key value s i field :
    deref out = Struct name fields inlineMap →
    (key, value) ∈ children → keyName key = Some s →
    list_find (λ f, f.1 = s) fields = Some (i, (s, field)) →
    unknownField field value →
    unknownField out (mappingNode ln children)
| unknown_in_merge out name fields inlineMap ln children key value :
    deref out = Struct name fields inlineMap →
    (key, value) ∈ children → isMerge key = true →
    mergeable value = true → unknownField (deref out) value →
    unknownField out (mappingNode ln children)
| unknown_in_slice out name et ln children child :
    deref out = Slice name et → child ∈ children → unknownField et child →
    unknownField out (sequenceNode ln children)
| unknown_in_array out name len et ln children child :
    deref out = Array name len et → child ∈ children → unknownField et child →
    unknownField out (sequenceNode ln children)
| unknown_in_alias out ln value target :
    unknownField out target → unknownField out (aliasNode ln value target)
| unknown_in_document out ln child :
    unknownField out child → unknownField out (documentNode ln [child]).

(** A call of the decoder ends in an error: it fails, or it adds a type
    error. *)
Definition erroneous (r : result) : Prop :=
  match r with
  | failed _ => True
  | finished _ terrors _ _ => terrors ≠ []
  end.

End strictness.

(** A library and a target for the examples below: a parser for the
    documents of one line [key: value], scalars stored as they are written,
    and a configuration with the one field [target]. *)
Definition exampleLibrary : yaml.Library := {|
  yaml.parse := λ doc,
    match strings.IndexByte doc ":" with
    | Some i =>
      yaml.parsedDocument
        (yaml.documentNode 0
           [yaml.mappingNode 0
              [(yaml.scalarNode 0 "" (sliceTo i doc) true,
                yaml.scalarNode 0 "" (sliceFrom (i + 2) doc) true)]])
    | None => yaml.parseFailed "yaml: unmarshal errors: not a mapping"
    end;
  yaml.scalar := λ n out,
    match n with
    | yaml.scalarNode _ _ value _ => yaml.leafDone true [] value
    | _ => yaml.leafDone false [] ""
    end;
  yaml.callUnmarshaler := λ _ _ c, yaml.finished true [] c yaml.noValue;
  yaml.mappingValue := λ _ _ c, yaml.finished true [] c yaml.noValue;
  yaml.aliasRatioExceeded := λ _ _, false;
  yaml.goSyntax := λ key, key
|}.

Definition exampleTarget : Target := {|
  value := string;
  zero := "";
  register := λ cfg, (cfg, []);
  schema := yaml.Struct "cortex.Config" [("target", yaml.Basic "string")] None;
  store := λ doc cfg, doc
|}.

(** The same collaborators with a configuration that registers the flag
    [config.file] itself. *)
Definition clashExternal : External := {|
  Config := string;
  zeroConfig := "";
  RegisterFlags := λ cfg, (cfg, [("config.file", "Configuration file of the module.")]);
  UnmarshalStrict := @UnmarshalStrict exampleExternal
|}.

(** A world with the one file [cfg.yaml] and a label left in the gauge
    vector by an earlier load. *)
Definition exampleWorld (args : list string) (content : string) : World :=
  mkWorld args {[ "cfg.yaml" := inl content ]} {[ "NAME" := "there" ]} false
          {[ ["0badc0de"] := 1%Z ]} [] "" [].

(** What the argument [t] supplies for the option [o] when it names it:
    [Some (Some v)] for [-o=v] and [--o=v], [Some None] for [-o] and [--o],
    which leave the value to the next argument, [None] for any other
    argument. *)
Definition tokenValue (o t : string) : option (option string) :=
  if bool_decide (t = "-" ++ o) || bool_decide (t = "--" ++ o) then Some None
  else if String.prefix ("-" ++ o ++ "=") t
  then Some (Some (sliceFrom (len ("-" ++ o ++ "=")) t))
  else if String.prefix ("--" ++ o ++ "=") t
  then Some (Some (sliceFrom (len ("--" ++ o ++ "=")) t))
  else None.

(** One scan of the arguments for the path: the value of the last argument
    that names the option and has a value, after ['='] or in the argument
    behind it. *)
Fixpoint lastPath (args : list string) : option string :=
  match args with
  | [] => None
  | t :: rest =>
    match lastPath rest with
    | Some v => Some v
    | None =>
      match tokenValue configFileOption t with
      | Some (Some v) => Some v
      | Some None => head rest
      | None => None
      end
    end
  end.

(** The same for the boolean: it is true without a value, the value when
    [strconv.ParseBool] reads it, and false when it does not. *)
Fixpoint lastBool (args : list string) : option bool :=
  match args with
  | [] => None
  | t :: rest =>
    match lastBool rest with
    | Some b => Some b
    | None =>
      match tokenValue configExpandENV t with
      | Some (Some v) => Some (default false (strconv.ParseBool v))
      | Some None => Some true
      | None => None
      end
    end
  end.

(** The locator as one scan. *)
Definition locate (args : list string) : string * bool :=
  (default "" (lastPath args), default false (lastBool args)).

(** A digit of [%x]. *)
Definition isLowerHex (c : ascii) : bool :=
  bool_decide (c ∈ ["0"; "1"; "2"; "3"; "4"; "5"; "6"; "7"; "8"; "9";
                    "a"; "b"; "c"; "d"; "e"; "f"]%char).

(* ===================================================================== *)
(** ** Facts about the string primitives *)
(* ===================================================================== *)

Section string_facts.

Lemma append_nil_r (s : string) : s ++ "" = s.
Proof. induction s; simpl; congruence. Qed.

Lemma append_assoc (a b c : string) : (a ++ b) ++ c = a ++ b ++ c.
Proof. induction a; simpl; congruence. Qed.

Lemma len_append (a b : string) : len (a ++ b) = len a + len b.
Proof. unfold len. induction a; simpl; congruence. Qed.

Lemma sliceFrom_0 s : sliceFrom 0 s = s.
Proof. by destruct s. Qed.

Lemma sliceFrom_nil j : sliceFrom j "" = "".
Proof. by destruct j. Qed.

Lemma sliceTo_nil j : sliceTo j "" = "".
Proof. by destruct j. Qed.

(** [s = s[:k] + s[k:]] *)
Lemma sliceTo_sliceFrom k s : sliceTo k s ++ sliceFrom k s = s.
Proof.
  revert s; induction k as [|k IH]; intros [|c s]; simpl; try done.
  by rewrite IH.
Qed.

(** [s[k:] = s[k] + s[k+1:]] when [k] is in range *)
Lemma sliceFrom_byteAt k s c :
  byteAt s k = Some c → sliceFrom k s = String c (sliceFrom (S k) s).
Proof.
  unfold byteAt. revert s; induction k as [|k IH]; intros [|b s]; simpl; try done.
  - intros [= ->]. by rewrite ?sliceFrom_0.
  - intros H. by rewrite (IH _ H).
Qed.

Lemma byteIs_Some s k c : byteIs s k c = true ↔ byteAt s k = Some c.
Proof.
  unfold byteIs. destruct (byteAt s k) as [b|]; [|naive_solver].
  rewrite bool_decide_eq_true. naive_solver.
Qed.

Lemma sliceFrom_sliceFrom i j s : sliceFrom i (sliceFrom j s) = sliceFrom (j + i) s.
Proof.
  revert s; induction j as [|j IH]; intros s; simpl.
  - by rewrite ?sliceFrom_0.
  - destruct s; [by rewrite ?sliceFrom_nil|]. apply IH.
Qed.

Lemma len_sliceFrom j s : len (sliceFrom j s) = len s - j.
Proof.
  unfold len. revert s; induction j as [|j IH]; intros [|c s]; simpl; try done.
Qed.

Lemma byteAt_sliceFrom j k s : byteAt (sliceFrom j s) k = byteAt s (j + k).
Proof.
  unfold byteAt. revert s; induction j as [|j IH]; intros s; simpl.
  - by rewrite ?sliceFrom_0.
  - destruct s; [by destruct k|]. apply IH.
Qed.

Lemma byteAt_lt s k : is_Some (byteAt s k) ↔ k < len s.
Proof.
  unfold byteAt, len. revert k; induction s as [|c s IH]; intros [|k]; simpl.
  - split; [intros [? [=]]|lia].
  - split; [intros [? [=]]|lia].
  - split; [lia|eauto].
  - rewrite IH. lia.
Qed.

Lemma sliceFrom_ge j s : (len s ≤ j)%nat → sliceFrom j s = "".
Proof.
  unfold len. revert s; induction j as [|j IH]; intros [|c s]; simpl; try done; try lia.
  intros H. apply IH. lia.
Qed.

Lemma slice_same i s : slice i i s = "".
Proof. unfold slice. rewrite Nat.sub_diag. by destruct (sliceFrom i s). Qed.

(** [s[i:j] + s[j:] = s[i:]] *)
Lemma slice_sliceFrom i j s : (i ≤ j)%nat → slice i j s ++ sliceFrom j s = sliceFrom i s.
Proof.
  intros Hij. unfold slice.
  rewrite <- (sliceTo_sliceFrom (j - i) (sliceFrom i s)) at 2.
  rewrite sliceFrom_sliceFrom. do 2 f_equal. lia.
Qed.

Lemma sliceTo_S k s c :
  byteAt s k = Some c → sliceTo (S k) s = sliceTo k s ++ String c "".
Proof.
  unfold byteAt. revert s; induction k as [|k IH]; intros [|b s]; simpl; try done.
  - by intros [= ->].
  - intros H. by rewrite <- (IH _ H).
Qed.

(** [s[i:j+1] = s[i:j] + s[j]] *)
Lemma slice_S i j s c :
  (i ≤ j)%nat → byteAt s j = Some c → slice i (S j) s = slice i j s ++ String c "".
Proof.
  intros Hij Hc. unfold slice. replace (S j - i) with (S (j - i)) by lia.
  apply sliceTo_S. rewrite byteAt_sliceFrom. rewrite <- Hc. f_equal. lia.
Qed.

Lemma byteAt_app_len a c b : byteAt (a ++ String c b) (len a) = Some c.
Proof. unfold byteAt, len. induction a; simpl; done. Qed.

Lemma byteAt_len s : byteAt s (len s) = None.
Proof. unfold byteAt, len. induction s; simpl; done. Qed.

Lemma sliceTo_app_len a b : sliceTo (len a) (a ++ b) = a.
Proof. unfold len. induction a; simpl; [by destruct b|congruence]. Qed.

Lemma sliceFrom_app_len a b : sliceFrom (len a) (a ++ b) = b.
Proof. unfold len. induction a; simpl; [by rewrite ?sliceFrom_0|done]. Qed.

Lemma append_snoc a c b : a ++ String c b = (a ++ String c "") ++ b.
Proof. by rewrite append_assoc. Qed.

Lemma len_snoc a c : len (a ++ String c "") = S (len a).
Proof. rewrite len_append. unfold len; simpl. lia. Qed.

Lemma append_same_l (s t : string) : s ++ t = s → t = "".
Proof.
  intros Heq. apply (f_equal len) in Heq. rewrite len_append in Heq.
  destruct t; [done|]. unfold len in Heq; simpl in Heq. lia.
Qed.

End string_facts.

(* ===================================================================== *)
(** ** Facts about the flag set and the locator *)
(* ===================================================================== *)

Section locator_facts.
Import flag.

(** The loop, one iteration unfolded. *)
Lemma parseLoop_step f :
  parseLoop f =
  match parseOne f with
  | (f', true, _) => parseLoop f'
  | (f', false, err) => (f', err)
  end.
Proof.
  rewrite parseLoop_equation_1.
  destruct (inspect (parseOne f)) as [[[f' []] err] Heq]; simpl; rewrite Heq; reflexivity.
Qed.

Lemma prefix_append (a b : string) : String.prefix a (a ++ b) = true.
Proof.
  induction a as [|c a IH]; simpl; [by destruct b|].
  by destruct (ascii_dec c c).
Qed.

Lemma findEquals_Some n i name k :
  findEquals n i name = Some k → byteAt name k = Some "="%char.
Proof.
  revert i; induction n as [|n IH]; intros i; simpl; [done|].
  destruct (byteIs name i "=") eqn:Hb; [|by apply IH].
  intros [= <-]. by apply byteIs_Some.
Qed.

(** The token without its dashes is the name, or the name, ['='] and the
    value. *)
Lemma splitValue_cases raw name hasValue value :
  splitValue raw = (name, hasValue, value) →
  (hasValue = false ∧ raw = name) ∨ (hasValue = true ∧ raw = name ++ String "=" value).
Proof.
  unfold splitValue. destruct (findEquals _ _ _) as [k|] eqn:Hk.
  - intros [= <- <- <-]. right. split; [done|].
    apply findEquals_Some, sliceFrom_byteAt in Hk.
    rewrite Nat.add_1_r, <- Hk. by rewrite sliceTo_sliceFrom.
  - intros [= <- <- <-]. by left.
Qed.

(** A token that passes the first test of [parseOne] starts with a dash. *)
Lemma token_dashes s :
  (len s <? 2)%nat || negb (byteIs s 0 "-") = false →
  s = "-" ++ sliceFrom 1 s ∧ (byteIs s 1 "-" = true → s = "--" ++ sliceFrom 2 s).
Proof.
  destruct s as [|a [|b t]]; simpl; try done.
  unfold byteIs; simpl. rewrite ?sliceFrom_0.
  intros Ha. apply negb_false_iff, bool_decide_eq_true in Ha as ->.
  split; [done|]. by intros ->%bool_decide_eq_true.
Qed.

Lemma mentions_intro o dashes raw value hasValue :
  dashes = "-" ∨ dashes = "--" →
  (hasValue = false ∧ raw = o) ∨ (hasValue = true ∧ raw = o ++ String "=" value) →
  mentions o (dashes ++ raw) = true.
Proof.
  unfold mentions. intros Hd [[_ ->]|[_ ->]].
  - destruct Hd as [-> | ->].
    + by rewrite bool_decide_eq_true_2.
    + rewrite (bool_decide_eq_true_2 ("--" ++ o = "--" ++ o)) by done.
      by rewrite orb_true_r.
  - replace (dashes ++ o ++ String "=" value) with ((dashes ++ o ++ "=") ++ value).
    + destruct Hd as [-> | ->]; rewrite prefix_append; by rewrite ?orb_true_r.
    + rewrite !append_assoc. done.
Qed.

Lemma bootstrap_formal name v :
  formal bootstrapFlagSet !! name = Some v ↔
  (name = configFileOption ∧ v = stringValue) ∨ (name = configExpandENV ∧ v = boolValue).
Proof.
  unfold bootstrapFlagSet, BoolVar, StringVar, define; simpl.
  rewrite !lookup_insert_Some, lookup_empty.
  unfold configFileOption, configExpandENV. split.
  - intros [[<- <-]|[_ [[<- <-]|[_ [=]]]]]; auto.
  - intros [[-> ->]|[-> ->]]; [right; split; [done|by left] | by left].
Qed.

(** What one call of [parseOne] changes: the defined flags stay, the
    remaining arguments become a suffix, and a variable is written only
    when the first argument names its option. *)
Lemma parseOne_frame f s rest f' seen err :
  formal f = formal bootstrapFlagSet →
  args f = s :: rest →
  parseOne f = (f', seen, err) →
  formal f' = formal f
  ∧ (∃ k, args f' = drop k (args f))
  ∧ (mentions configFileOption s = false → strVar f' = strVar f)
  ∧ (mentions configExpandENV s = false → boolVar f' = boolVar f).
Proof.
  intros Hformal Hargs. unfold parseOne. rewrite Hargs.
  destruct ((len s <? 2)%nat || negb (byteIs s 0 "-")) eqn:Hdash.
  { intros [= <- <- <-]. rewrite ?Hargs. repeat split; try done. by exists 0. }
  apply token_dashes in Hdash as [Hs1 Hs2].
  destruct (byteIs s 1 "-" && (len s =? 2)%nat) eqn:Hterm.
  { intros [= <- <- <-]. simpl. rewrite ?Hargs. repeat split; try done. by exists 1. }
  set (numMinuses := if byteIs s 1 "-" then 2 else 1).
  assert (∃ dashes, (dashes = "-" ∨ dashes = "--")
                    ∧ s = dashes ++ sliceFrom numMinuses s) as (dashes & Hd & Hs).
  { subst numMinuses. destruct (byteIs s 1 "-"); [exists "--"|exists "-"]; auto. }
  destruct ((len (sliceFrom numMinuses s) =? 0)%nat || _ || _) eqn:Hbad.
  { intros [= <- <- <-]. rewrite ?Hargs. repeat split; try done. by exists 0. }
  destruct (splitValue (sliceFrom numMinuses s)) as [[name hasValue] value] eqn:Hsplit.
  apply splitValue_cases in Hsplit.
  assert (∀ o, name = o → mentions o s = true) as Hmention.
  { intros o ->. rewrite Hs. by eapply mentions_intro. }
  simpl formal. rewrite Hformal.
  destruct (formal bootstrapFlagSet !! name) as [v|] eqn:Hlook.
  - apply bootstrap_formal in Hlook as [[Hname ->]|[Hname ->]];
      apply Hmention in Hname; rewrite Hname.
    + simpl args.
      destruct hasValue, rest as [|v rest']; simpl; intros [= <- <- <-]; simpl;
        rewrite ?Hargs; repeat split; try done;
        first [by exists 1 | by exists 2].
    + unfold boolValue_Set.
      destruct hasValue; repeat case_match; simplify_eq/=;
        intros [= <- <- <-]; simpl; rewrite ?Hargs; repeat split; try done;
        by exists 1.
  - case_match; intros [= <- <- <-]; simpl; rewrite ?Hargs; repeat split; try done;
      by exists 1.
Qed.

(** The same for a whole run of [Parse], by induction on the number of
    arguments left. *)
Lemma parseLoop_frame f :
  formal f = formal bootstrapFlagSet →
  formal (parseLoop f).1 = formal f
  ∧ (unmentioned configFileOption (args f) → strVar (parseLoop f).1 = strVar f)
  ∧ (unmentioned configExpandENV (args f) → boolVar (parseLoop f).1 = boolVar f).
Proof.
  remember (length (args f)) as n eqn:Hn. revert f Hn.
  induction n as [n IH] using lt_wf_ind. intros f Hn Hformal.
  rewrite parseLoop_step.
  destruct (parseOne f) as [[f' seen] err] eqn:Hone.
  destruct (args f) as [|s rest] eqn:Hargs.
  { unfold parseOne in Hone. rewrite Hargs in Hone.
    injection Hone as <- <- <-. done. }
  pose proof (parseOne_frame _ _ _ _ _ _ Hformal Hargs Hone)
    as (Hf & [k Hk] & Hstr & Hbool).
  rewrite Hargs in Hk.
  destruct seen; simpl; [|split; [done|]].
  - pose proof (parseOne_seen_shrinks _ _ _ Hone) as Hlt.
    rewrite Hargs, <- Hn in Hlt.
    destruct (IH _ Hlt f' eq_refl) as (IHf & IHstr & IHbool); [congruence|].
    split; [congruence|]. unfold unmentioned in *.
    split; intros Hall; pose proof (Forall_drop _ k _ Hall) as Hall';
      rewrite <- Hk in Hall'; apply Forall_cons in Hall as [Hs _].
    + rewrite IHstr by done. auto.
    + rewrite IHbool by done. auto.
  - unfold unmentioned. split; intros [Hs _]%Forall_cons; auto.
Qed.

Lemma Parse_frame arguments f :
  formal f = formal bootstrapFlagSet →
  formal (Parse arguments f).1 = formal f
  ∧ (unmentioned configFileOption arguments → strVar (Parse arguments f).1 = strVar f)
  ∧ (unmentioned configExpandENV arguments → boolVar (Parse arguments f).1 = boolVar f).
Proof.
  intros Hformal. unfold Parse.
  by destruct (parseLoop_frame (set_args arguments (set_parsed true f))).
Qed.

(** The shift-and-retry loop keeps the defined flags ... *)
Lemma shiftAndRetry_formal args fs :
  formal fs = formal bootstrapFlagSet →
  formal (shiftAndRetry fs args) = formal bootstrapFlagSet.
Proof.
  revert fs; induction args as [|a args IH]; intros fs Hformal; simpl; [done|].
  apply IH. destruct (Parse_frame (a :: args) fs Hformal) as [-> _]. done.
Qed.

(** ... and writes no variable whose option no argument names. *)
Lemma shiftAndRetry_frame args fs :
  formal fs = formal bootstrapFlagSet →
  (unmentioned configFileOption args → strVar (shiftAndRetry fs args) = strVar fs)
  ∧ (unmentioned configExpandENV args → boolVar (shiftAndRetry fs args) = boolVar fs).
Proof.
  revert fs; induction args as [|a args IH]; intros fs Hformal; simpl; [done|].
  destruct (Parse_frame (a :: args) fs Hformal) as (Hf & Hstr & Hbool).
  destruct (IH (Parse (a :: args) fs).1) as [IHstr IHbool]; [congruence|].
  unfold unmentioned in *.
  split; intros Hall; pose proof Hall as [_ Htl]%Forall_cons.
  - rewrite IHstr by done. auto.
  - rewrite IHbool by done. auto.
Qed.

(** The iterations over a prefix of the arguments end in a flag set with
    the same defined flags, from which the loop goes on with the rest. *)
Lemma shiftAndRetry_app pre rest fs :
  formal fs = formal bootstrapFlagSet →
  ∃ fs', formal fs' = formal bootstrapFlagSet
         ∧ shiftAndRetry fs (pre ++ rest) = shiftAndRetry fs' rest.
Proof.
  revert fs; induction pre as [|a pre IH]; intros fs Hformal; simpl; [eauto|].
  apply IH. destruct (Parse_frame (a :: pre ++ rest) fs Hformal) as [-> _]. done.
Qed.

Lemma lookup_configFile :
  formal bootstrapFlagSet !! "config.file" = Some stringValue.
Proof. apply bootstrap_formal. by left. Qed.

Lemma lookup_configExpandENV :
  formal bootstrapFlagSet !! "config.expand-env" = Some boolValue.
Proof. apply bootstrap_formal. by right. Qed.

(** [-config.file=v] at the head of the arguments: the path is [v]. *)
Lemma parseOne_file_eq f dashes v rest :
  formal f = formal bootstrapFlagSet → isDashes dashes →
  args f = (dashes ++ "config.file=" ++ v) :: rest →
  ∃ f', parseOne f = (f', true, None)
        ∧ formal f' = formal f ∧ args f' = rest ∧ strVar f' = v.
Proof.
  intros Hformal Hd Hargs. unfold parseOne. rewrite Hargs.
  destruct Hd as [-> | ->]; unfold splitValue, len, byteIs, byteAt; simpl.
  all: rewrite Hformal, lookup_configFile; simpl; eauto.
Qed.

(** [-config.file v]: the path is the next argument, whatever it is. *)
Lemma parseOne_file_next f dashes v rest :
  formal f = formal bootstrapFlagSet → isDashes dashes →
  args f = (dashes ++ "config.file") :: v :: rest →
  ∃ f', parseOne f = (f', true, None)
        ∧ formal f' = formal f ∧ args f' = rest ∧ strVar f' = v.
Proof.
  intros Hformal Hd Hargs. unfold parseOne. rewrite Hargs.
  destruct Hd as [-> | ->]; unfold splitValue, len, byteIs, byteAt; simpl.
  all: rewrite Hformal, lookup_configFile; simpl; eauto.
Qed.

(** [-config.expand-env]: the flag is set to true. *)
Lemma parseOne_expand_bare f dashes rest :
  formal f = formal bootstrapFlagSet → isDashes dashes →
  args f = (dashes ++ "config.expand-env") :: rest →
  ∃ f', parseOne f = (f', true, None)
        ∧ formal f' = formal f ∧ args f' = rest ∧ boolVar f' = true.
Proof.
  intros Hformal Hd Hargs. unfold parseOne. rewrite Hargs.
  destruct Hd as [-> | ->]; unfold splitValue, len, byteIs, byteAt; simpl.
  all: rewrite Hformal, lookup_configExpandENV; simpl; eauto.
Qed.

(** [-config.expand-env=b] with [b] a spelling of a boolean. *)
Lemma parseOne_expand_eq f dashes b bv rest :
  formal f = formal bootstrapFlagSet → isDashes dashes →
  strconv.ParseBool b = Some bv →
  args f = (dashes ++ "config.expand-env=" ++ b) :: rest →
  ∃ f', parseOne f = (f', true, None)
        ∧ formal f' = formal f ∧ args f' = rest ∧ boolVar f' = bv.
Proof.
  intros Hformal Hd Hb Hargs. unfold parseOne. rewrite Hargs.
  destruct Hd as [-> | ->]; unfold splitValue, len, byteIs, byteAt; simpl.
  all: rewrite Hformal, lookup_configExpandENV; unfold boolValue_Set;
    rewrite Hb; simpl; eauto.
Qed.

(** When the first [parseOne] of the arguments [toks ++ post] writes [v]
    to the path and no argument after the first token names the option
    again, the loop ends with [v]. *)
Lemma shiftAndRetry_hit_str fs tok post k v :
  formal fs = formal bootstrapFlagSet →
  (∀ f, formal f = formal bootstrapFlagSet → args f = tok :: post →
        ∃ f', parseOne f = (f', true, None)
              ∧ formal f' = formal f ∧ args f' = drop k post ∧ strVar f' = v) →
  unmentioned configFileOption post →
  strVar (shiftAndRetry fs (tok :: post)) = v.
Proof.
  intros Hformal Hhit Hpost. simpl.
  destruct (Parse_frame (tok :: post) fs Hformal) as (Hf & _).
  destruct (shiftAndRetry_frame post (Parse (tok :: post) fs).1) as [Hrest _];
    [congruence|]. rewrite Hrest by done.
  unfold Parse. rewrite parseLoop_step.
  destruct (Hhit (set_args (tok :: post) (set_parsed true fs)))
    as (f' & -> & Hf' & Hargs' & <-); [done..|].
  destruct (parseLoop_frame f') as (_ & Hloop & _); [simpl in Hf'; congruence|].
  apply Hloop. rewrite Hargs'. by apply Forall_drop.
Qed.

Lemma shiftAndRetry_hit_bool fs tok post k v :
  formal fs = formal bootstrapFlagSet →
  (∀ f, formal f = formal bootstrapFlagSet → args f = tok :: post →
        ∃ f', parseOne f = (f', true, None)
              ∧ formal f' = formal f ∧ args f' = drop k post ∧ boolVar f' = v) →
  unmentioned configExpandENV post →
  boolVar (shiftAndRetry fs (tok :: post)) = v.
Proof.
  intros Hformal Hhit Hpost. simpl.
  destruct (Parse_frame (tok :: post) fs Hformal) as (Hf & _).
  destruct (shiftAndRetry_frame post (Parse (tok :: post) fs).1) as [_ Hrest];
    [congruence|]. rewrite Hrest by done.
  unfold Parse. rewrite parseLoop_step.
  destruct (Hhit (set_args (tok :: post) (set_parsed true fs)))
    as (f' & -> & Hf' & Hargs' & <-); [done..|].
  destruct (parseLoop_frame f') as (_ & _ & Hloop); [simpl in Hf'; congruence|].
  apply Hloop. rewrite Hargs'. by apply Forall_drop.
Qed.

(** *** The locator as one scan of the arguments *)

Lemma prefix_split a t :
  String.prefix a t = true → t = a ++ sliceFrom (len a) t.
Proof.
  revert t. induction a as [|c a IH]; intros t; simpl.
  - intros _. by rewrite ?sliceFrom_0.
  - destruct t as [|b t]; simpl; [done|].
    destruct (ascii_dec c b) as [->|]; [|done].
    intros Ht. f_equal. by apply IH.
Qed.

Lemma tokenValue_bare o t :
  tokenValue o t = Some None → ∃ dashes, isDashes dashes ∧ t = dashes ++ o.
Proof.
  unfold tokenValue.
  destruct (bool_decide (t = "-" ++ o)) eqn:H1; cbn [orb].
  { apply bool_decide_eq_true in H1. intros _. exists "-". split; [by left|done]. }
  destruct (bool_decide (t = "--" ++ o)) eqn:H2; cbn [orb].
  { apply bool_decide_eq_true in H2. intros _. exists "--". split; [by right|done]. }
  by repeat case_match.
Qed.

Lemma tokenValue_value o t v :
  tokenValue o t = Some (Some v) →
  ∃ dashes, isDashes dashes ∧ t = dashes ++ o ++ "=" ++ v.
Proof.
  unfold tokenValue.
  destruct (bool_decide (t = "-" ++ o) || bool_decide (t = "--" ++ o)); [done|].
  destruct (String.prefix ("-" ++ o ++ "=") t) eqn:H1.
  - intros [= <-]. exists "-". split; [by left|].
    apply prefix_split in H1. rewrite H1 at 1. by rewrite !append_assoc.
  - destruct (String.prefix ("--" ++ o ++ "=") t) eqn:H2; [|done].
    intros [= <-]. exists "--". split; [by right|].
    apply prefix_split in H2. rewrite H2 at 1. by rewrite !append_assoc.
Qed.

Lemma tokenValue_None o t : tokenValue o t = None → mentions o t = false.
Proof.
  unfold tokenValue, mentions.
  destruct (bool_decide (t = "-" ++ o) || bool_decide (t = "--" ++ o)); [done|].
  by repeat case_match.
Qed.

(** [-config.file] as the last argument: the flag needs an argument, and
    the path is not written. *)
Lemma parseOne_file_last f dashes :
  formal f = formal bootstrapFlagSet → isDashes dashes →
  args f = [dashes ++ "config.file"] →
  ∃ f' err, parseOne f = (f', false, err) ∧ strVar f' = strVar f.
Proof.
  intros Hformal Hd Hargs. unfold parseOne. rewrite Hargs.
  destruct Hd as [-> | ->]; unfold splitValue, len, byteIs, byteAt; simpl.
  all: rewrite Hformal, lookup_configFile; simpl; eauto.
Qed.

(** [-config.expand-env=b] with a [b] that spells no boolean: an error, and
    the flag is written all the same, with false. *)
Lemma parseOne_expand_invalid f dashes b rest :
  formal f = formal bootstrapFlagSet → isDashes dashes →
  strconv.ParseBool b = None →
  args f = (dashes ++ "config.expand-env=" ++ b) :: rest →
  ∃ f' err, parseOne f = (f', false, err) ∧ boolVar f' = false.
Proof.
  intros Hformal Hd Hb Hargs. unfold parseOne. rewrite Hargs.
  destruct Hd as [-> | ->]; unfold splitValue, len, byteIs, byteAt; simpl.
  all: rewrite Hformal, lookup_configExpandENV; unfold boolValue_Set;
    rewrite Hb; simpl; eauto.
Qed.

Lemma lastPath_cons_None t rest :
  lastPath (t :: rest) = None →
  lastPath rest = None
  ∧ (tokenValue configFileOption t = None
     ∨ (tokenValue configFileOption t = Some None ∧ rest = [])).
Proof.
  simpl. destruct (lastPath rest); [done|]. split; [done|].
  destruct (tokenValue configFileOption t) as [[v|]|]; [done| |by left].
  destruct rest; [by right|done].
Qed.

Lemma lastPath_drop_None k l : lastPath l = None → lastPath (drop k l) = None.
Proof.
  revert l. induction k as [|k IH]; intros [|t l] Hl; simpl; try done.
  apply IH. by apply lastPath_cons_None in Hl as [? _].
Qed.

Lemma lastBool_None l : lastBool l = None → unmentioned configExpandENV l.
Proof.
  induction l as [|t l IH]; simpl; [by constructor|].
  destruct (lastBool l); [done|].
  destruct (tokenValue configExpandENV t) as [[v|]|] eqn:Ht; try done.
  intros _. constructor; [by apply tokenValue_None|by apply IH].
Qed.

(** A run of [Parse] over arguments in which the scan finds no path does
    not write the path. *)
Lemma parseLoop_quiet f :
  formal f = formal bootstrapFlagSet →
  lastPath (args f) = None → strVar (parseLoop f).1 = strVar f.
Proof.
  remember (length (args f)) as n eqn:Hn. revert f Hn.
  induction n as [n IH] using lt_wf_ind. intros f Hn Hformal Hquiet.
  rewrite parseLoop_step.
  destruct (parseOne f) as [[f' seen] err] eqn:Hone.
  destruct (args f) as [|s rest] eqn:Hargs.
  { unfold parseOne in Hone. rewrite Hargs in Hone.
    injection Hone as <- <- <-. done. }
  pose proof Hquiet as [Hrest [Hs|[Hs ->]]]%lastPath_cons_None.
  - pose proof (parseOne_frame _ _ _ _ _ _ Hformal Hargs Hone)
      as (Hf & [k Hk] & Hstr & _).
    apply tokenValue_None in Hs. rewrite Hargs in Hk.
    destruct seen; simpl; [|auto].
    pose proof (parseOne_seen_shrinks _ _ _ Hone) as Hlt.
    rewrite Hargs, <- Hn in Hlt.
    rewrite (IH _ Hlt f' eq_refl); [auto|congruence|].
    rewrite Hk. by apply lastPath_drop_None.
  - apply tokenValue_bare in Hs as (dashes & Hd & ->).
    destruct (parseOne_file_last f dashes Hformal Hd Hargs) as (f1 & e1 & H1 & Hstr).
    rewrite H1 in Hone. by injection Hone as <- <- <-.
Qed.

(** The path after the loop: what the scan finds, or the path before. *)
Lemma shiftAndRetry_path args fs :
  formal fs = formal bootstrapFlagSet →
  strVar (shiftAndRetry fs args) = default (strVar fs) (lastPath args).
Proof.
  revert fs. induction args as [|t rest IH]; intros fs Hformal; [done|].
  change (shiftAndRetry fs (t :: rest))
    with (shiftAndRetry (Parse (t :: rest) fs).1 rest).
  destruct (Parse_frame (t :: rest) fs Hformal) as (Hf & _).
  rewrite IH by congruence. simpl lastPath.
  destruct (lastPath rest) as [v|] eqn:Hrest; [done|]. simpl.
  set (f0 := set_args (t :: rest) (set_parsed true fs)).
  assert (formal f0 = formal bootstrapFlagSet) as Hf0 by done.
  unfold Parse. fold f0.
  destruct (tokenValue configFileOption t) as [[v|]|] eqn:Ht.
  - apply tokenValue_value in Ht as (dashes & Hd & ->).
    rewrite parseLoop_step.
    destruct (parseOne_file_eq f0 dashes v rest Hf0 Hd eq_refl)
      as (f' & -> & Hf' & Hargs' & <-).
    apply parseLoop_quiet; [congruence|by rewrite Hargs'].
  - apply tokenValue_bare in Ht as (dashes & Hd & ->).
    rewrite parseLoop_step. destruct rest as [|v rest'].
    + destruct (parseOne_file_last f0 dashes Hf0 Hd eq_refl)
        as (f' & err & -> & Hstr). done.
    + destruct (parseOne_file_next f0 dashes v rest' Hf0 Hd eq_refl)
        as (f' & -> & Hf' & Hargs' & <-).
      apply parseLoop_quiet; [congruence|]. rewrite Hargs'.
      by apply lastPath_cons_None in Hrest as [? _].
  - rewrite parseLoop_quiet; [done..|]. simpl. by rewrite Hrest, Ht.
Qed.

(** The boolean after the loop, likewise. *)
Lemma shiftAndRetry_bool args fs :
  formal fs = formal bootstrapFlagSet →
  boolVar (shiftAndRetry fs args) = default (boolVar fs) (lastBool args).
Proof.
  revert fs. induction args as [|t rest IH]; intros fs Hformal; [done|].
  change (shiftAndRetry fs (t :: rest))
    with (shiftAndRetry (Parse (t :: rest) fs).1 rest).
  destruct (Parse_frame (t :: rest) fs Hformal) as (Hf & _ & Hframe).
  rewrite IH by congruence. simpl lastBool.
  destruct (lastBool rest) as [v|] eqn:Hrest; [done|]. simpl.
  apply lastBool_None in Hrest.
  set (f0 := set_args (t :: rest) (set_parsed true fs)).
  assert (formal f0 = formal bootstrapFlagSet) as Hf0 by done.
  destruct (tokenValue configExpandENV t) as [[v|]|] eqn:Ht.
  - apply tokenValue_value in Ht as (dashes & Hd & ->).
    unfold Parse. fold f0. rewrite parseLoop_step.
    destruct (strconv.ParseBool v) as [bv|] eqn:Hv.
    + destruct (parseOne_expand_eq f0 dashes v bv rest Hf0 Hd Hv eq_refl)
        as (f' & -> & Hf' & Hargs' & <-).
      destruct (parseLoop_frame f') as (_ & _ & Hloop); [congruence|].
      apply Hloop. by rewrite Hargs'.
    + destruct (parseOne_expand_invalid f0 dashes v rest Hf0 Hd Hv eq_refl)
        as (f' & err & -> & Hbool). done.
  - apply tokenValue_bare in Ht as (dashes & Hd & ->).
    unfold Parse. fold f0. rewrite parseLoop_step.
    destruct (parseOne_expand_bare f0 dashes rest Hf0 Hd eq_refl)
      as (f' & -> & Hf' & Hargs' & <-).
    destruct (parseLoop_frame f') as (_ & _ & Hloop); [congruence|].
    apply Hloop. by rewrite Hargs'.
  - apply Hframe. constructor; [by apply tokenValue_None|done].
Qed.

End locator_facts.

(* ===================================================================== *)
(** ** Facts about [getShellName] *)
(* ===================================================================== *)

Section shellname_facts.
Import os.

Lemma noByte_cons c b s : noByte c (String b s) ↔ b ≠ c ∧ noByte c s.
Proof.
  unfold noByte; simpl. case_bool_decide as Hb.
  - split; [done|]. by intros [? _].
  - destruct (strings.IndexByte s c); simpl; split; try done; by intros [_ ?].
Qed.

(** The scan to the closing brace finds the first ['}']. *)
Lemma scanBrace_found pfx inner post n :
  noByte "}" inner → len inner < n →
  scanBrace n (len pfx) (pfx ++ inner ++ String "}" post) =
  let k := len pfx + len inner in
  if (k =? 1)%nat then ("", 2)
  else (slice 1 k (pfx ++ inner ++ String "}" post), k + 1).
Proof.
  revert pfx n. induction inner as [|c inner IH]; intros pfx n Hno Hn.
  - destruct n as [|n]; [unfold len in Hn; simpl in Hn; lia|]. simpl.
    unfold byteIs. rewrite byteAt_app_len, bool_decide_eq_true_2 by done.
    unfold len at 3 5; simpl. by rewrite !Nat.add_0_r.
  - apply noByte_cons in Hno as [Hc Hno].
    destruct n as [|n]; [lia|]. simpl.
    unfold byteIs. rewrite byteAt_app_len, bool_decide_eq_false_2 by done.
    rewrite (append_snoc pfx c), <- len_snoc with (c := c).
    rewrite IH; [|done|unfold len in *; simpl in *; lia].
    rewrite len_snoc. unfold len at 2 4 6 8; simpl.
    by replace (len pfx + S (String.length inner))
      with (S (len pfx + String.length inner)) by lia.
Qed.

(** Without a closing brace the scan reports bad syntax. *)
Lemma scanBrace_none pfx rest n :
  noByte "}" rest → (n ≤ len rest)%nat →
  scanBrace n (len pfx) (pfx ++ rest) = ("", 1).
Proof.
  revert pfx rest. induction n as [|n IH]; intros pfx rest Hno Hn; simpl; [done|].
  destruct rest as [|c rest]; [unfold len in Hn; simpl in Hn; lia|].
  apply noByte_cons in Hno as [Hc Hno].
  unfold byteIs. rewrite byteAt_app_len, bool_decide_eq_false_2 by done.
  rewrite (append_snoc pfx c), <- len_snoc with (c := c).
  apply IH; [done|unfold len in *; simpl in *; lia].
Qed.

(** The scan of alphanumerics stops after a run that is followed by the
    end of the input or by another kind of byte. *)
Lemma scanAlphaNum_run pfx name post n :
  allSat isAlphaNum name = true → byteSat isAlphaNum post 0 = false →
  (len name ≤ n)%nat →
  scanAlphaNum n (len pfx) (pfx ++ name ++ post) = len pfx + len name.
Proof.
  revert pfx n. induction name as [|c name IH]; intros pfx n Hall Hpost Hn.
  - unfold len at 3; simpl. rewrite Nat.add_0_r.
    destruct n as [|n]; simpl; [done|].
    replace (byteSat isAlphaNum (pfx ++ post) (len pfx)) with false; [done|].
    unfold byteSat in *. destruct post as [|b post].
    + by rewrite append_nil_r, byteAt_len.
    + by rewrite byteAt_app_len.
  - simpl in Hall. apply andb_true_iff in Hall as [Hc Hall].
    destruct n as [|n]; [unfold len in Hn; simpl in Hn; lia|]. simpl.
    unfold byteSat at 1. rewrite byteAt_app_len, Hc.
    rewrite (append_snoc pfx c), <- len_snoc with (c := c).
    rewrite IH; [|done..|unfold len in *; simpl in *; lia].
    rewrite len_snoc. unfold len; simpl. lia.
Qed.

Lemma noByte_byteIs c s k : noByte c s → byteIs s k c = false.
Proof.
  revert k. induction s as [|b s IH]; intros k Hno; [by destruct k|].
  apply noByte_cons in Hno as [Hb Hno]. destruct k as [|k].
  - unfold byteIs; simpl. by rewrite bool_decide_eq_false_2.
  - by apply IH.
Qed.

Lemma noByte_app c a b : noByte c (a ++ b) ↔ noByte c a ∧ noByte c b.
Proof.
  induction a as [|x a IH]; simpl; [by intuition|].
  rewrite !noByte_cons, IH. tauto.
Qed.

Lemma IndexByte_app a c b :
  noByte c a → strings.IndexByte (a ++ String c b) c = Some (len a).
Proof.
  induction a as [|x a IH]; simpl.
  - intros _. by rewrite bool_decide_eq_true_2.
  - intros [Hx Hno]%noByte_cons. rewrite bool_decide_eq_false_2 by done.
    by rewrite IH.
Qed.

(** [${inner}]: the name is [inner]; [${}] is bad syntax. *)
Lemma getShellName_braces inner post :
  noByte "}" inner →
  getShellName (String "{" (inner ++ String "}" post)) =
  if bool_decide (inner = "") then ("", 2) else (inner, len inner + 2).
Proof.
  intros Hno. unfold getShellName.
  set (s := String "{" (inner ++ String "}" post)).
  assert (len inner < len s - 1) as Hlen.
  { subst s. unfold len; simpl. fold (len (inner ++ String "}" post)).
    rewrite len_append. unfold len; simpl. lia. }
  pose proof (scanBrace_found "{" inner post (len s - 1) Hno Hlen) as Hscan.
  change ("{" ++ inner ++ String "}" post) with s in Hscan.
  change (len "{") with 1 in Hscan. cbv zeta in Hscan.
  assert (scanBrace (len s - 1) 1 s =
          if bool_decide (inner = "") then ("", 2) else (inner, len inner + 2))
    as Hscan'.
  { rewrite Hscan. destruct inner as [|c inner]; [done|].
    rewrite bool_decide_eq_false_2 by done.
    replace (1 + len (String c inner) =? 1)%nat with false
      by (symmetry; apply Nat.eqb_neq; unfold len; simpl; lia).
    f_equal; [|lia]. subst s. unfold slice.
    replace (1 + len (String c inner) - 1) with (len (String c inner)) by lia.
    apply (sliceTo_app_len (String c inner)). }
  replace (byteIs s 0 "{") with true by done.
  destruct ((2 <? len s)%nat && byteSat isShellSpecialVar s 1 && byteIs s 2 "}")
    eqn:Hsp; [|done].
  apply andb_true_iff in Hsp as [[_ Hspecial]%andb_true_iff Hclose].
  destruct inner as [|c [|d inner]]; [done|done|].
  apply noByte_cons in Hno as [_ [Hd _]%noByte_cons].
  subst s. unfold byteIs in Hclose; simpl in Hclose.
  by rewrite bool_decide_eq_false_2 in Hclose.
Qed.

(** [${] without a closing brace: bad syntax, the two bytes are eaten. *)
Lemma getShellName_unterminated rest :
  noByte "}" rest → getShellName (String "{" rest) = ("", 1).
Proof.
  intros Hno. unfold getShellName.
  replace (byteIs (String "{" rest) 0 "{") with true by done.
  replace (byteIs (String "{" rest) 2 "}") with false
    by (symmetry; apply (noByte_byteIs "}" rest 1 Hno)).
  rewrite andb_false_r.
  apply (scanBrace_none "{" rest); [done|]. unfold len; simpl. lia.
Qed.

(** [$name] for a bare name that the rest of the input does not extend. *)
Lemma getShellName_bare name post :
  bareName name → byteSat isAlphaNum post 0 = false →
  getShellName (name ++ post) = (name, len name).
Proof.
  intros (Hne & Hall & Hfirst) Hpost. unfold getShellName.
  destruct name as [|c name]; [done|].
  assert (c ≠ "{"%char) as Hc.
  { intros ->. simpl in Hall. done. }
  replace (byteIs (String c name ++ post) 0 "{") with false
    by (unfold byteIs; simpl; by rewrite bool_decide_eq_false_2).
  replace (byteSat isShellSpecialVar (String c name ++ post) 0) with false by done.
  pose proof (scanAlphaNum_run "" (String c name) post
                (len (String c name ++ post)) Hall Hpost) as Hrun.
  change ("" ++ ?x) with x in Hrun. change (len "" + ?x) with x in Hrun.
  change (len "") with 0 in Hrun.
  rewrite Hrun by (rewrite len_append; lia).
  by rewrite sliceTo_app_len.
Qed.

(** [$c] for a special variable [c]. *)
Lemma getShellName_special c post :
  isShellSpecialVar c = true → getShellName (String c post) = (String c "", 1).
Proof.
  intros Hc. unfold getShellName.
  assert (c ≠ "{"%char) as Hne by (by intros ->).
  replace (byteIs (String c post) 0 "{") with false
    by (unfold byteIs; simpl; by rewrite bool_decide_eq_false_2).
  replace (byteSat isShellSpecialVar (String c post) 0) with true by done.
  unfold slice; simpl. by destruct post.
Qed.

(** A dollar before a byte that starts no name. *)
Lemma getShellName_other c post :
  c ≠ "{"%char → isShellSpecialVar c = false → isAlphaNum c = false →
  getShellName (String c post) = ("", 0).
Proof.
  intros Hne Hsp Hal. unfold getShellName.
  replace (byteIs (String c post) 0 "{") with false
    by (unfold byteIs; simpl; by rewrite bool_decide_eq_false_2).
  replace (byteSat isShellSpecialVar (String c post) 0) with false by done.
  unfold len; simpl. unfold byteSat; simpl. by rewrite Hal.
Qed.

(** A bare name holds no byte that is not alphanumeric. *)
Lemma allSat_noByte c s :
  isAlphaNum c = false → allSat isAlphaNum s = true → noByte c s.
Proof.
  intros Hc. induction s as [|b s IH]; simpl; [done|].
  intros [Hb Hall]%andb_true_iff. apply noByte_cons. split; [|by apply IH].
  intros ->. congruence.
Qed.

(** *** The bytes consumed stay inside the input *)

Lemma scanBrace_width n i s :
  (1 ≤ i)%nat → (i + n ≤ len s)%nat → ((scanBrace n i s).2 ≤ len s)%nat.
Proof.
  revert i. induction n as [|n IH]; intros i Hi Hn; simpl; [lia|].
  destruct (byteIs s i "}").
  - destruct (i =? 1)%nat; simpl; lia.
  - apply IH; lia.
Qed.

Lemma scanAlphaNum_width n i s :
  (i + n ≤ len s)%nat → (scanAlphaNum n i s ≤ len s)%nat.
Proof.
  revert i. induction n as [|n IH]; intros i Hn; simpl; [lia|].
  destruct (byteSat isAlphaNum s i); [apply IH|]; lia.
Qed.

(** [getShellName] consumes no more than its input, so that the indices
    [i] and [j] of [Expand] never pass [len(s)]. *)
Lemma getShellName_width s : s ≠ "" → ((getShellName s).2 ≤ len s)%nat.
Proof.
  intros Hs. assert (1 ≤ len s)%nat as Hlen.
  { destruct s; [done|]. unfold len; simpl. lia. }
  unfold getShellName. destruct (byteIs s 0 "{").
  - destruct ((2 <? len s)%nat && _ && _) eqn:Hsp.
    + apply andb_true_iff in Hsp as [[Hl%Nat.ltb_lt _]%andb_true_iff _].
      simpl. lia.
    + apply scanBrace_width; lia.
  - destruct (byteSat isShellSpecialVar s 0); simpl; [lia|].
    apply scanAlphaNum_width. lia.
Qed.

End shellname_facts.

(* ===================================================================== *)
(** ** Facts about [os.Expand] *)
(* ===================================================================== *)

Section expand_facts.
Import os.
Context (mapping : string → string).

(** The loop, one iteration unfolded. *)
Lemma expandLoop_step s j i buf :
  expandLoop s mapping j i buf =
  if (j <? len s)%nat then
    if byteIs s j "$" && (j + 1 <? len s)%nat then
      let r := getShellName (sliceFrom (j + 1) s) in
      expandLoop s mapping (j + r.2 + 1) (j + r.2 + 1)
        (Some ((default "" buf ++ slice i j s) ++ expansion mapping r.1 r.2))
    else expandLoop s mapping (j + 1) i buf
  else
    match buf with
    | None => s
    | Some b => b ++ sliceFrom i s
    end.
Proof.
  rewrite expandLoop_equation_1.
  destruct (inspect (j <? len s)%nat) as [[] Heq]; simpl; rewrite Heq; reflexivity.
Qed.

Lemma Expand_nil : Expand "" mapping = "".
Proof. unfold Expand. by rewrite expandLoop_step. Qed.

(** The first iteration of [Expand]. *)
Lemma Expand_step t :
  Expand t mapping =
  if (0 <? len t)%nat then
    if byteIs t 0 "$" && (1 <? len t)%nat then
      let r := getShellName (sliceFrom 1 t) in
      expandLoop t mapping (r.2 + 1) (r.2 + 1) (Some (expansion mapping r.1 r.2))
    else expandLoop t mapping 1 0 None
  else t.
Proof.
  unfold Expand. rewrite expandLoop_step. by rewrite slice_same.
Qed.

(** The loop at index [j] of [s] is the output so far, the pending
    literal run [s[i:j]], and a fresh [Expand] of the rest [s[j:]]. *)
Lemma expandLoop_suffix s j i buf :
  (i ≤ j)%nat → (buf = None → i = 0) →
  expandLoop s mapping j i buf
  = default "" buf ++ slice i j s ++ Expand (sliceFrom j s) mapping.
Proof.
  remember (len s - j) as n eqn:Hn. revert s j i buf Hn.
  induction n as [n IH] using lt_wf_ind. intros s j i buf Hn Hij Hnil.
  rewrite expandLoop_step.
  destruct (j <? len s)%nat eqn:Hlt.
  - apply Nat.ltb_lt in Hlt.
    destruct (byteAt_lt s j) as [_ [c Hc]]; [done|].
    pose proof (sliceFrom_byteAt _ _ _ Hc) as Htail.
    assert (len (sliceFrom j s) = len s - j) as Hlen by apply len_sliceFrom.
    rewrite (Expand_step (sliceFrom j s)).
    replace (0 <? len (sliceFrom j s))%nat with true
      by (symmetry; apply Nat.ltb_lt; lia).
    replace (byteIs (sliceFrom j s) 0 "$") with (byteIs s j "$")
      by (unfold byteIs; by rewrite byteAt_sliceFrom, Nat.add_0_r).
    replace (1 <? len (sliceFrom j s))%nat with (j + 1 <? len s)%nat
      by (rewrite Hlen; destruct (Nat.ltb_spec (j + 1) (len s));
          symmetry; [apply Nat.ltb_lt|apply Nat.ltb_ge]; lia).
    destruct (byteIs s j "$" && (j + 1 <? len s)%nat) eqn:Htrig; cbv zeta.
    + rewrite sliceFrom_sliceFrom.
      set (r := getShellName (sliceFrom (j + 1) s)).
      rewrite (IH (len s - (j + r.2 + 1))) by (done || lia).
      rewrite (IH (len (sliceFrom j s) - (r.2 + 1))) by (done || lia).
      rewrite !slice_same, sliceFrom_sliceFrom. simpl.
      replace (j + (r.2 + 1)) with (j + r.2 + 1) by lia.
      by rewrite !append_assoc.
    + rewrite (IH (len s - (j + 1))) by (done || lia).
      rewrite (IH (len (sliceFrom j s) - 1)) by (done || lia).
      rewrite sliceFrom_sliceFrom. simpl.
      replace (j + 1) with (S j) by lia.
      rewrite (slice_S i j s c) by done.
      replace (slice 0 1 (sliceFrom j s)) with (String c "")
        by (rewrite Htail; unfold slice; simpl; by rewrite ?sliceFrom_0).
      by rewrite !append_assoc.
  - apply Nat.ltb_ge in Hlt.
    rewrite (sliceFrom_ge j s), Expand_nil, append_nil_r by done.
    destruct buf as [b|]; simpl.
    + f_equal. rewrite <- (slice_sliceFrom i j s) by done.
      by rewrite (sliceFrom_ge j s), append_nil_r.
    + rewrite Hnil by done. unfold slice. rewrite sliceFrom_0, Nat.sub_0_r.
      rewrite <- (sliceTo_sliceFrom j s) at 1.
      by rewrite (sliceFrom_ge j s), append_nil_r.
Qed.

(** *** The scanner equations of [Expand] *)

(** A byte other than the dollar is copied. *)
Lemma Expand_literal c rest :
  c ≠ "$"%char → Expand (String c rest) mapping = String c (Expand rest mapping).
Proof.
  intros Hc. rewrite Expand_step. unfold byteIs; simpl.
  rewrite bool_decide_eq_false_2 by done. simpl.
  rewrite expandLoop_suffix by (done || lia).
  unfold slice; simpl. by rewrite ?sliceFrom_0.
Qed.

(** A dollar that ends the input is copied. *)
Lemma Expand_trailing_dollar : Expand "$" mapping = "$".
Proof.
  rewrite Expand_step. unfold byteIs; simpl.
  rewrite expandLoop_suffix by (done || lia). simpl. by rewrite Expand_nil.
Qed.

(** A dollar followed by more input: the expansion of what
    [getShellName] reads, then the rest after the bytes it consumed. *)
Lemma Expand_dollar rest :
  rest ≠ "" →
  Expand (String "$" rest) mapping =
  let r := getShellName rest in
  expansion mapping r.1 r.2 ++ Expand (sliceFrom r.2 rest) mapping.
Proof.
  intros Hrest. rewrite Expand_step. unfold byteIs; simpl.
  destruct rest as [|c rest]; [done|]. simpl.
  rewrite expandLoop_suffix by (done || lia).
  rewrite slice_same. simpl. rewrite ?sliceFrom_0.
  replace ((getShellName (String c rest)).2 + 1)
    with (S (getShellName (String c rest)).2) by lia.
  done.
Qed.

(** *** What [Expand] does with each shape of input *)

(** Literal text before the first dollar is copied. *)
Lemma Expand_app_literal pre s :
  noByte "$" pre → Expand (pre ++ s) mapping = pre ++ Expand s mapping.
Proof.
  induction pre as [|c pre IH]; simpl; [done|].
  intros [Hc Hno]%noByte_cons. rewrite Expand_literal by done. by rewrite IH.
Qed.

Lemma Expand_noDollar s : noByte "$" s → Expand s mapping = s.
Proof.
  intros Hno. rewrite <- (append_nil_r s) at 1.
  by rewrite Expand_app_literal, Expand_nil, append_nil_r.
Qed.

Lemma Expand_braces inner post :
  noByte "}" inner →
  Expand (String "$" (String "{" (inner ++ String "}" post))) mapping =
  (if bool_decide (inner = "") then "" else mapping inner) ++ Expand post mapping.
Proof.
  intros Hno.
  rewrite Expand_dollar by done. cbv zeta.
  rewrite getShellName_braces by done.
  case_bool_decide as Hinner; simpl fst; simpl snd.
  - subst inner. done.
  - unfold expansion. rewrite bool_decide_eq_false_2 by done. simpl.
    replace (len inner + 2) with (S (len (inner ++ "}"))); simpl.
    + rewrite (append_snoc inner "}" post). by rewrite sliceFrom_app_len.
    + rewrite len_append. unfold len; simpl. lia.
Qed.

Lemma Expand_unterminated rest :
  noByte "}" rest →
  Expand (String "$" (String "{" rest)) mapping = Expand rest mapping.
Proof.
  intros Hno.
  rewrite Expand_dollar by done. cbv zeta.
  rewrite getShellName_unterminated by done. simpl. by rewrite ?sliceFrom_0.
Qed.

Lemma Expand_bare name post :
  bareName name → byteSat isAlphaNum post 0 = false →
  Expand (String "$" (name ++ post)) mapping = mapping name ++ Expand post mapping.
Proof.
  intros Hname Hpost.
  rewrite Expand_dollar by (destruct Hname as [? _]; by destruct name).
  cbv zeta. rewrite getShellName_bare by done. simpl fst; simpl snd.
  rewrite sliceFrom_app_len. unfold expansion.
  destruct Hname as [Hne _]. by rewrite bool_decide_eq_false_2.
Qed.

Lemma Expand_special c post :
  isShellSpecialVar c = true →
  Expand (String "$" (String c post)) mapping
  = mapping (String c "") ++ Expand post mapping.
Proof.
  intros Hc. rewrite Expand_dollar by done. cbv zeta.
  rewrite getShellName_special by done. simpl. by rewrite ?sliceFrom_0.
Qed.

Lemma Expand_lone_dollar c post :
  c ≠ "{"%char → isShellSpecialVar c = false → isAlphaNum c = false →
  Expand (String "$" (String c post)) mapping
  = String "$" (String c (Expand post mapping)).
Proof.
  intros Hne Hsp Hal. rewrite Expand_dollar by done. cbv zeta.
  rewrite getShellName_other by done. simpl.
  rewrite Expand_literal; [done|]. by intros ->.
Qed.

End expand_facts.

(* ===================================================================== *)
(** ** [os.Expand] uses its mapping only through the values it returns *)
(* ===================================================================== *)

Section expand_ext_facts.
Import os.
Context (m1 m2 : string → string).
Hypothesis Hext : ∀ key, m1 key = m2 key.

Lemma expansion_ext name w : expansion m1 name w = expansion m2 name w.
Proof. unfold expansion. by rewrite Hext. Qed.

Lemma expandLoop_ext s j i buf :
  expandLoop s m1 j i buf = expandLoop s m2 j i buf.
Proof.
  remember (len s - j) as n eqn:Hn. revert j i buf Hn.
  induction n as [n IH] using lt_wf_ind. intros j i buf Hn.
  rewrite (expandLoop_step m1), (expandLoop_step m2).
  destruct (j <? len s)%nat eqn:Hlt; [|done].
  apply Nat.ltb_lt in Hlt.
  destruct (byteIs s j "$" && (j + 1 <? len s)%nat); cbv zeta.
  - rewrite expansion_ext. eapply IH; [|done]. lia.
  - eapply IH; [|done]. lia.
Qed.

Lemma Expand_ext s : Expand s m1 = Expand s m2.
Proof. apply expandLoop_ext. Qed.

End expand_ext_facts.

(* ===================================================================== *)
(** ** Facts about the mapping of [expandEnv] *)
(* ===================================================================== *)

Section mapping_facts.
Context (env : gmap string string).

Lemma envMapping_name name :
  noByte ":" name → envMapping env name = os.Getenv env name.
Proof.
  intros Hno. unfold envMapping, strings.SplitN2. rewrite Hno. simpl.
  by rewrite andb_false_r.
Qed.

Lemma envMapping_default name dflt :
  noByte ":" name →
  envMapping env (name ++ String ":" dflt) =
  if bool_decide (os.Getenv env name = "") then dflt else os.Getenv env name.
Proof.
  intros Hno. unfold envMapping, strings.SplitN2.
  rewrite IndexByte_app by done. simpl.
  rewrite sliceTo_app_len, Nat.add_1_r, append_snoc, <- len_snoc with (c := ":"%char).
  rewrite sliceFrom_app_len. by rewrite andb_true_r.
Qed.

(** A variable set to the empty string reads as one that is not set. *)
Lemma Getenv_empty_unset key name :
  os.Getenv (<[key := ""]> env) name = os.Getenv (delete key env) name.
Proof.
  unfold os.Getenv. case_bool_decide; [done|].
  destruct (decide (key = name)) as [->|Hne].
  - by rewrite lookup_insert_eq, lookup_delete_eq.
  - by rewrite lookup_insert_ne, lookup_delete_ne.
Qed.

End mapping_facts.

(* ===================================================================== *)
(** ** The digest on known inputs *)
(* ===================================================================== *)

(** The first and the last constant of each table, as the package writes
    them. *)
Example sha256_constants :
  sha256.init !! 0 = Some 0x6a09e667%N ∧ sha256.init !! 7 = Some 0x5be0cd19%N
  ∧ sha256._K !! 0 = Some 0x428a2f98%N ∧ sha256._K !! 63 = Some 0xc67178f2%N
  ∧ length sha256._K = 64.
Proof. repeat split. Qed.

Example Sum256_empty :
  fmt.Sprintf_x (sha256.Sum256 "")
  = "e3b0c44298fc1c149afbf4c8996fb92427ae41e4649b934ca495991b7852b855".
Proof. vm_compute. reflexivity. Qed.

Example Sum256_abc :
  fmt.Sprintf_x (sha256.Sum256 "abc")
  = "ba7816bf8f01cfea414140de5dae2223b00361a396177a9cb410ff61f20015ad".
Proof. vm_compute. reflexivity. Qed.

(** 56 bytes: the padding takes a second chunk. *)
Example Sum256_two_chunks :
  fmt.Sprintf_x
    (sha256.Sum256 "aaaaaaaaaaaaaaaaaaaaaaaaaaaaaaaaaaaaaaaaaaaaaaaaaaaaaaaa")
  = "b35439a4ac6f0948b6d6f9e3c6af0f5f590ce20f1bde7090ef7970686ec6738a".
Proof. vm_compute. reflexivity. Qed.

Section digest_facts.
Import sha256.

Lemma round_length st kw : length st = 8 → length (round st kw) = 8.
Proof.
  intros Hst. do 9 (destruct st as [|? st]; simpl in Hst; try lia). done.
Qed.

Lemma rounds_length l st : length st = 8 → length (foldl round st l) = 8.
Proof.
  revert st. induction l as [|kw l IH]; intros st Hst; simpl; [done|].
  by apply IH, round_length.
Qed.

Lemma block_length h p : length h = 8 → length (block h p) = 8.
Proof.
  intros Hh. unfold block. rewrite length_zip_with, rounds_length by done. lia.
Qed.

Lemma blocks_length h p : length h = 8 → length (blocks h p) = 8.
Proof.
  funelim (blocks h p); intros Hh; [done|].
  match goal with IH : _ → length (blocks _ _) = 8 |- _ => apply IH end.
  by apply block_length.
Qed.

Lemma ofBytes_length l : String.length (ofBytes l) = length l.
Proof.
  unfold ofBytes. induction l as [|b l IH]; simpl; [done|]. by f_equal.
Qed.

Lemma bigEndian_words_length l :
  length (mjoin (bigEndian 4 <$> l)) = 4 * length l.
Proof.
  induction l as [|x l IH]; [done|].
  change (mjoin (bigEndian 4 <$> x :: l))
    with (bigEndian 4 x ++ mjoin (bigEndian 4 <$> l))%list.
  rewrite length_app, IH. simpl. lia.
Qed.

(** The digest has 32 bytes, so the label has 64 hexadecimal digits. *)
Lemma Sum256_length data : String.length (Sum256 data) = 32.
Proof.
  unfold Sum256. rewrite ofBytes_length, bigEndian_words_length.
  by rewrite blocks_length.
Qed.

Lemma Sprintf_x_length b : String.length (fmt.Sprintf_x b) = 2 * String.length b.
Proof. induction b as [|c b IH]; simpl; [done|]. rewrite IH. lia. Qed.

(** The value of a hexadecimal digit, the inverse of [hexDigit]. *)
Definition hexValue (c : ascii) : nat :=
  let n := nat_of_ascii c in
  if (n <? 58)%nat then n - 48 else n - 87.

Lemma hexValue_hexDigit n : n < 16 → hexValue (fmt.hexDigit n) = n.
Proof.
  intros Hn. do 16 (destruct n as [|n]; [reflexivity|]). lia.
Qed.

Lemma hexDigit_lower n : n < 16 → os.isAlphaNum (fmt.hexDigit n) = true.
Proof.
  intros Hn. do 16 (destruct n as [|n]; [reflexivity|]). lia.
Qed.

(** The two digits of a byte determine it. *)
Lemma Sprintf_x_inj b1 b2 : fmt.Sprintf_x b1 = fmt.Sprintf_x b2 → b1 = b2.
Proof.
  revert b2.
  induction b1 as [|c1 b1 IH]; intros [|c2 b2]; cbn [fmt.Sprintf_x]; try done.
  intros [= Hhi Hlo Hrest]. f_equal; [|by apply IH].
  pose proof (nat_ascii_bounded c1) as H1. pose proof (nat_ascii_bounded c2) as H2.
  assert (nat_of_ascii c1 = nat_of_ascii c2) as Heq.
  { apply (f_equal hexValue) in Hhi, Hlo.
    assert (∀ n, n < 256 → n / 16 < 16 ∧ n mod 16 < 16) as Hdigits.
    { intros n Hn. split; [apply Nat.Div0.div_lt_upper_bound; lia|].
      apply Nat.mod_upper_bound. lia. }
    destruct (Hdigits _ H1) as [Hd1 Hm1]. destruct (Hdigits _ H2) as [Hd2 Hm2].
    rewrite !hexValue_hexDigit in Hhi, Hlo by done.
    rewrite (Nat.div_mod_eq (nat_of_ascii c1) 16), (Nat.div_mod_eq (nat_of_ascii c2) 16).
    f_equal; [f_equal; exact Hhi|exact Hlo]. }
  by rewrite <- (ascii_nat_embedding c1), <- (ascii_nat_embedding c2), Heq.
Qed.

Lemma Sprintf_x_alphabet b : allSat isLowerHex (fmt.Sprintf_x b) = true.
Proof.
  assert (∀ n, n < 16 → isLowerHex (fmt.hexDigit n) = true) as Hdigit.
  { intros n Hn. do 16 (destruct n as [|n]; [reflexivity|]). lia. }
  induction b as [|c b IH]; [done|]. cbn [fmt.Sprintf_x allSat].
  pose proof (nat_ascii_bounded c) as Hc.
  rewrite !Hdigit, IH; [done| |].
  - apply Nat.mod_upper_bound. lia.
  - apply Nat.Div0.div_lt_upper_bound. lia.
Qed.

End digest_facts.

(* ===================================================================== *)
(** ** Facts about the loader *)
(* ===================================================================== *)

Section loader_facts.
Context `{External}.

Lemma readResult_file w name buf :
  name ≠ "" → files w !! name = Some (inl buf) → readResult w name = inl buf.
Proof.
  intros Hname Hfile. unfold readResult, ReadFile; simpl.
  by rewrite bool_decide_eq_false_2, Hfile.
Qed.

(** A failed read: the error is wrapped and nothing else happens. *)
Lemma LoadConfig_read_failure filename expandENV cfg w err :
  readResult w filename = inr err →
  LoadConfig filename expandENV cfg w
  = ((cfg, Some (errors.Wrap err "Error reading config file")),
     log (evReadFile filename) w).
Proof.
  unfold readResult, LoadConfig, bind. destruct (ReadFile filename w) as [r w'] eqn:Hr.
  simpl. intros ->. unfold ReadFile in Hr. by injection Hr as _ <-.
Qed.

(** A successful read: the result is the decoder's, on the document; the
    gauge vector holds the fingerprint of the bytes read and nothing else;
    the steps are the read, the reset, the set, the decoding. *)
Lemma LoadConfig_read_success filename expandENV cfg w buf :
  readResult w filename = inl buf →
  let doc := document w expandENV buf in
  let r := UnmarshalStrict doc cfg in
  let w' := (LoadConfig filename expandENV cfg w).2 in
  (LoadConfig filename expandENV cfg w).1
  = (r.1, (λ e, errors.Wrap e "Error parsing config file") <$> r.2)
  ∧ configHash w' = {[ fingerprint buf := 1%Z ]}
  ∧ trace w' = (trace w ++ [evReadFile filename; evGaugeReset;
                            evGaugeSet (fingerprint buf) 1; evUnmarshal doc])%list
  ∧ osArgs w' = osArgs w ∧ files w' = files w ∧ environ w' = environ w
  ∧ testMode w' = testMode w ∧ commandLine w' = commandLine w
  ∧ stderr w' = stderr w.
Proof.
  unfold readResult, LoadConfig, bind. destruct (ReadFile filename w) as [r w'] eqn:Hr.
  simpl. intros ->. unfold ReadFile in Hr. injection Hr as _ <-.
  unfold document. destruct expandENV; simpl;
    destruct (UnmarshalStrict _ cfg) as [cfg' [e|]]; simpl;
    rewrite <- !app_assoc; simpl; repeat split; done.
Qed.

End loader_facts.

(* ===================================================================== *)
(** ** Facts about the registration of flags and the run of [main] *)
(* ===================================================================== *)

Section orchestrator_facts.
Context `{External}.

Lemma set_commandLine_same w : set_commandLine (commandLine w) w = w.
Proof. by destruct w. Qed.

Lemma CommandLine_Var_fresh name usage w :
  flagName name → name ∉ (commandLine w).*1 →
  CommandLine_Var name usage w
  = (None, set_commandLine (commandLine w ++ [(name, usage)]) w).
Proof.
  intros [Hdash Heq] Hfresh. unfold CommandLine_Var.
  rewrite Hdash, Heq. by rewrite bool_decide_eq_false_2.
Qed.

Lemma CommandLine_Var_redefined name usage w :
  flagName name → name ∈ (commandLine w).*1 →
  CommandLine_Var name usage w = (Some (flagRedefined name), w).
Proof.
  intros [Hdash Heq] Hin. unfold CommandLine_Var.
  rewrite Hdash, Heq. by rewrite bool_decide_eq_true_2.
Qed.

(** Flags that can be registered are registered, in their order. *)
Lemma CommandLine_Vars_registrable flags w :
  registrable w flags →
  CommandLine_Vars flags w = (None, set_commandLine (commandLine w ++ flags) w).
Proof.
  revert w. induction flags as [|[name usage] rest IH];
    intros w (Hnames & Hdup & Hfresh).
  - simpl. unfold ret. by rewrite app_nil_r, set_commandLine_same.
  - simpl in Hnames, Hdup, Hfresh.
    apply Forall_cons in Hnames as [Hname Hnames].
    apply NoDup_cons in Hdup as [Hhead Hdup].
    cbn [CommandLine_Vars]. unfold bind.
    rewrite CommandLine_Var_fresh; [|done|apply Hfresh; by left].
    rewrite IH.
    + simpl. by rewrite <- app_assoc.
    + split; [done|]. split; [done|]. intros n Hn. simpl.
      rewrite fmap_app. simpl. intros [Hin|Hin%list_elem_of_singleton]%elem_of_app.
      * by apply (Hfresh n); [right|].
      * by subst.
Qed.


(** The end of [main], by the names registered when it is reached. *)
Lemma ignoreBootstrapFlags_run w :
  ignoreBootstrapFlags w
  = if bool_decide (configFileOption ∈ (commandLine w).*1)
    then (panicked (flagRedefined configFileOption), w)
    else if bool_decide (configExpandENV ∈ (commandLine w).*1)
    then (panicked (flagRedefined configExpandENV),
          set_commandLine
            (commandLine w ++ [(configFileOption, "Configuration file to load.")]) w)
    else (returned, ignoredFlags w).
Proof.
  assert (flagName configFileOption) as Hfile by done.
  assert (flagName configExpandENV) as Hexpand by done.
  unfold ignoreBootstrapFlags, unlessPanic, bind.
  case_bool_decide as Hin1.
  { by rewrite CommandLine_Var_redefined. }
  rewrite CommandLine_Var_fresh by done.
  case_bool_decide as Hin2.
  - rewrite CommandLine_Var_redefined; [done..|].
    simpl. rewrite fmap_app. apply elem_of_app. by left.
  - rewrite CommandLine_Var_fresh; [|done|].
    + unfold ret, ignoredFlags. simpl. by rewrite <- app_assoc.
    + simpl. rewrite fmap_app. simpl.
      by intros [?|[=]%list_elem_of_singleton]%elem_of_app.
Qed.

(** The end of [main] touches the registered flags only. *)
Lemma ignoreBootstrapFlags_frame w :
  let w' := (ignoreBootstrapFlags w).2 in
  testMode w' = testMode w ∧ stderr w' = stderr w ∧ trace w' = trace w
  ∧ configHash w' = configHash w.
Proof. rewrite ignoreBootstrapFlags_run. by repeat case_bool_decide. Qed.

(** The registration of the defaults does not change what a read gives. *)
Lemma readResult_registered w registered name :
  readResult (set_commandLine registered w) name = readResult w name.
Proof. done. Qed.

(** What a load leaves of the world [main] hands to it. *)
Lemma LoadConfig_in_main (w : World) (path : string) (expandENV : bool) (cfg : Config)
    (registered : list (string * string)) :
  let w0 := set_commandLine registered w in
  let l := LoadConfig path expandENV cfg w0 in
  testMode l.2 = testMode w ∧ stderr l.2 = stderr w
  ∧ commandLine l.2 = registered
  ∧ match readResult w path with
    | inl buf =>
      l.1.2 = (λ e, errors.Wrap e "Error parsing config file")
                <$> (UnmarshalStrict (document w expandENV buf) cfg).2
      ∧ configHash l.2 = {[ fingerprint buf := 1%Z ]}
      ∧ trace l.2 = (trace w ++ [evReadFile path; evGaugeReset;
                                 evGaugeSet (fingerprint buf) 1;
                                 evUnmarshal (document w expandENV buf)])%list
    | inr err =>
      l.1.2 = Some (errors.Wrap err "Error reading config file")
      ∧ configHash l.2 = configHash w
      ∧ trace l.2 = (trace w ++ [evReadFile path])%list
    end.
Proof.
  intros w0 l. subst l.
  assert (readResult w0 path = readResult w path) as Hread by done.
  destruct (readResult w path) as [buf|err] eqn:Hr.
  - destruct (LoadConfig_read_success path expandENV cfg w0 buf Hread)
      as (Hres & Hhash & Htrace & _ & _ & _ & Htest & Hcl & Herr).
    cbv zeta in Hres. by rewrite Hres.
  - by rewrite (LoadConfig_read_failure path expandENV cfg w0 err Hread).
Qed.

(** [main], run in a world where the flags of the configuration can be
    registered: the outcome and the world it leaves. *)
Lemma main_run (w : World) :
  registrable w (RegisterFlags zeroConfig).2 →
  main w =
  let args := parseConfigFileParameter (osArgs w) in
  let reg := RegisterFlags zeroConfig in
  let w0 := set_commandLine (commandLine w ++ reg.2) w in
  if bool_decide (args.1 ≠ "") then
    let l := LoadConfig args.1 args.2 reg.1 w0 in
    match l.1.2 with
    | Some err =>
      (if testMode l.2 then returned else exited 1,
       set_stderr (stderr l.2 ++ "error loading config from " ++ args.1 ++ ": "
                   ++ errors.Error err ++ newline) l.2)
    | None => ignoreBootstrapFlags l.2
    end
  else ignoreBootstrapFlags w0.
Proof.
  intros Hreg. unfold main, bind, Args, registerFlagsM. cbv beta zeta.
  destruct (parseConfigFileParameter (osArgs w)) as [configFile expandENV].
  destruct (RegisterFlags zeroConfig) as [cfg registered]. unfold bind.
  rewrite CommandLine_Vars_registrable by done. simpl.
  case_bool_decide; [|done].
  destruct (LoadConfig configFile expandENV cfg _) as [[cfg' [err|]] w1]; simpl;
    [|done].
  by destruct (testMode w1).
Qed.

(** [main] in a world where nothing else has registered the flags of the
    locator either: it does not panic. *)
Lemma main_run_fresh (w : World) :
  registrable w (RegisterFlags zeroConfig).2 → bootstrapFlagsFresh w →
  main w =
  let args := parseConfigFileParameter (osArgs w) in
  let reg := RegisterFlags zeroConfig in
  let w0 := set_commandLine (commandLine w ++ reg.2) w in
  if bool_decide (args.1 ≠ "") then
    let l := LoadConfig args.1 args.2 reg.1 w0 in
    match l.1.2 with
    | Some err =>
      (if testMode l.2 then returned else exited 1,
       set_stderr (stderr l.2 ++ "error loading config from " ++ args.1 ++ ": "
                   ++ errors.Error err ++ newline) l.2)
    | None => (returned, ignoredFlags l.2)
    end
  else (returned, ignoredFlags w0).
Proof.
  intros Hreg [Hfile Hexpand]. rewrite main_run by done. cbv zeta.
  unfold registeredNames in *. rewrite <- fmap_app in Hfile, Hexpand.
  assert (∀ w1, commandLine w1 = (commandLine w ++ (RegisterFlags zeroConfig).2)%list →
            ignoreBootstrapFlags w1 = (returned, ignoredFlags w1)) as Hend.
  { intros w1 Hcl. rewrite ignoreBootstrapFlags_run, Hcl.
    by rewrite !bool_decide_eq_false_2. }
  case_bool_decide; [|by apply Hend].
  destruct (LoadConfig_in_main w (parseConfigFileParameter (osArgs w)).1
              (parseConfigFileParameter (osArgs w)).2 (RegisterFlags zeroConfig).1
              (commandLine w ++ (RegisterFlags zeroConfig).2))
    as (_ & _ & Hcl & _). cbv zeta in Hcl.
  destruct (LoadConfig _ _ _ _).1.2; [done|]. by apply Hend.
Qed.

End orchestrator_facts.

(* ===================================================================== *)
(** ** Facts about the decoder *)
(* ===================================================================== *)

Section decoder_facts.
Import yaml.
Context `{Library}.

#[local] Arguments next : simpl never.

Lemma erroneous_next r k :
  erroneous r ∨ (∀ good c out, erroneous (k good c out)) → erroneous (next r k).
Proof.
  unfold next.
  intros [Hr|Hk]; destruct r as [err|good terrors c out]; simpl in *; try done.
  - destruct (k good c out); [done|]. simpl. by destruct terrors.
  - specialize (Hk good c out). destruct (k good c out); [done|]. simpl in *.
    intros [_ ?]%app_eq_nil. done.
Qed.

Lemma erroneous_next_l r k : erroneous r → erroneous (next r k).
Proof. intros. apply erroneous_next. by left. Qed.

Lemma erroneous_next_r r k :
  (∀ good c out, erroneous (k good c out)) → erroneous (next r k).
Proof. intros. apply erroneous_next. by right. Qed.

Lemma unmarshal_unfold strict n out c :
  unmarshal strict n out c
  = let c := entered c in
    if excessiveAliasing c then failed "yaml: document contains excessive aliasing"
    else
      match n with
      | documentNode _ children => document (unmarshal strict) children out c
      | aliasNode _ _ target => alias (unmarshal strict) target out c
      | scalarNode _ _ _ _ =>
        if isNull n then ofLeaf (scalar n out) c
        else
          match deref out with
          | Custom _ => callUnmarshaler n (deref out) c
          | out => ofLeaf (scalar n out) c
          end
      | mappingNode _ children =>
        match deref out with
        | Custom _ => callUnmarshaler n (deref out) c
        | Struct _ fields inlineMap =>
          mappingStruct strict (unmarshal strict) (deref out) fields inlineMap
            children c [] []
        | MapSlice _ | Map _ | Interface _ => mappingValue n (deref out) c
        | out => finished false [terror n "!!map" out] c noValue
        end
      | sequenceNode _ children =>
        match deref out with
        | Custom _ => callUnmarshaler n (deref out) c
        | Slice _ et => elements (unmarshal strict) et children c
        | Array _ len et =>
          if bool_decide (length children = len)
          then elements (unmarshal strict) et children c
          else failed ("yaml: invalid array: want " ++ pretty len
                       ++ " elements but got " ++ pretty (length children))
        | MapSlice _ => elements (unmarshal strict) mapItemType children c
        | Interface _ => elements (unmarshal strict) ifaceType children c
        | out => finished false [terror n "!!seq" out] c noValue
        end
      end.
Proof. by destruct n. Qed.

(** The decoding of a key that has a name. *)
Lemma unmarshal_key strict key s c :
  keyName key = Some s →
  ∃ r, unmarshal strict key stringType c = r
       ∧ (erroneous r ∨ ∃ c' keys, r = finished true [] c' (mkStored s keys)).
Proof.
  intros Hkey. eexists. split; [done|].
  destruct key as [| | |ln tag value implicit|]; try done.
  rewrite unmarshal_unfold. cbv zeta.
  destruct (excessiveAliasing _); [by left|].
  unfold keyName in Hkey. destruct (isMerge _); [done|].
  destruct (scalar _ stringType) as [|[] terrors s'] eqn:Hleaf; try done.
  injection Hkey as ->.
  destruct (isNull _); simpl; change (Basic "string") with stringType;
    rewrite ?Hleaf; simpl; (destruct terrors; [right; eauto|by left]).
Qed.

(** A loop over the elements of a sequence ends in an error when the
    decoding of one of them does. *)
Lemma elements_erroneous rec et l child c :
  child ∈ l → (∀ c, erroneous (rec child et c)) →
  erroneous (elements rec et l c).
Proof.
  intros Hin Hchild. revert c.
  induction l as [|x l IH]; intros c; [by apply elem_of_nil in Hin|].
  simpl. apply elem_of_cons in Hin as [<-|Hin].
  - by apply erroneous_next_l.
  - apply erroneous_next_r. intros _ c' _. by apply IH.
Qed.

Lemma erroneous_next_finished good terrors c out k :
  erroneous (k good c out) → erroneous (next (finished good terrors c out) k).
Proof.
  unfold next. destruct (k good c out); [done|]. simpl. by intros ? [_ ?]%app_eq_nil.
Qed.

(** The loop over the keys and values of a mapping ends in an error when
    the step of one of its pairs does, whatever the pairs after it. *)
Lemma mappingStruct_erroneous strict rec out fields inlineMap l p :
  p ∈ l →
  (∀ rest c doneFields inlineKeys,
     erroneous (mappingStruct strict rec out fields inlineMap (p :: rest)
                  c doneFields inlineKeys)) →
  ∀ c doneFields inlineKeys,
    erroneous (mappingStruct strict rec out fields inlineMap l c doneFields inlineKeys).
Proof.
  intros Hin Hstep.
  induction l as [|[ni v] l IH]; intros c doneFields inlineKeys;
    [by apply elem_of_nil in Hin|].
  apply elem_of_cons in Hin as [->|Hin]; [done|]. specialize (IH Hin).
  cbn [mappingStruct]. cbv zeta.
  repeat first
    [ apply IH
    | apply erroneous_next_r; intros ? ? ?
    | case_match ].
Qed.

(** The strictness of the decoder: a node that holds a field unknown to
    the type it is decoded into makes the strict decoder end in an
    error. *)
Lemma unmarshal_unknownField out n :
  unknownField out n → ∀ c, erroneous (unmarshal true n out c).
Proof.
  induction 1 as
    [out name fields ln children key value s Hout Hin Hkey Hs
    |out name fields inlineMap ln children key value s i field Hout Hin Hkey Hfind _ IH
    |out name fields inlineMap ln children key value Hout Hin Hkey Hvalue _ IH
    |out name et ln children child Hout Hin _ IH
    |out name len et ln children child Hout Hin _ IH
    |out ln value target _ IH
    |out ln child _ IH]; intros c; rewrite unmarshal_unfold; cbv zeta;
    (destruct (excessiveAliasing _); [done|]); rewrite ?Hout.
  - apply (mappingStruct_erroneous _ _ _ _ _ _ (key, value) Hin).
    intros rest c' doneFields inlineKeys. cbn [mappingStruct]. cbv zeta.
    assert (isMerge key = false) as ->.
    { unfold keyName in Hkey. destruct key; try done. by destruct (isMerge _). }
    destruct (unmarshal_key true key s c' Hkey) as (r & -> & [Hr|(c2 & ks & ->)]);
      [by apply erroneous_next_l|].
    apply erroneous_next_finished. simpl.
    assert (list_find (λ f : string * type, f.1 = s) fields = None) as ->.
    { apply list_find_None, Forall_forall. intros [s' t'] Hf <-.
      apply Hs. apply list_elem_of_fmap. by exists (s', t'). }
    by apply erroneous_next_l.
  - apply (mappingStruct_erroneous _ _ _ _ _ _ (key, value) Hin).
    intros rest c' doneFields inlineKeys. cbn [mappingStruct]. cbv zeta.
    assert (isMerge key = false) as ->.
    { unfold keyName in Hkey. destruct key; try done. by destruct (isMerge _). }
    destruct (unmarshal_key true key s c' Hkey) as (r & -> & [Hr|(c2 & ks & ->)]);
      [by apply erroneous_next_l|].
    apply erroneous_next_finished. simpl. rewrite Hfind.
    destruct (bool_decide (s ∈ doneFields)); by apply erroneous_next_l.
  - apply (mappingStruct_erroneous _ _ _ _ _ _ (key, value) Hin).
    intros rest c' doneFields inlineKeys. cbn [mappingStruct]. cbv zeta.
    rewrite Hkey. apply erroneous_next_l.
    rewrite Hout in IH.
    destruct value as [| | | |? ? []]; try done; exact (IH c').
  - by apply elements_erroneous with child.
  - case_bool_decide; [|done]. by apply elements_erroneous with child.
  - by apply erroneous_next_l.
  - by apply erroneous_next_l.
Qed.

(** The error [UnmarshalStrict] returns for the bytes of such a
    document. *)
Lemma unmarshalError_unknownField schema input n :
  parse input = parsedDocument n → unknownField schema n →
  ∃ terrors err,
    unmarshalError true schema input = Some (errors.External err)
    ∧ (err = TypeError_Error terrors ∧ terrors ≠ []
       ∨ unmarshal true n schema (mkCounts 0 0 0) = failed err).
Proof.
  intros Hparse Hn. unfold unmarshalError. rewrite Hparse.
  pose proof (unmarshal_unknownField _ _ Hn (mkCounts 0 0 0)) as Herr.
  destruct (unmarshal true n schema _) as [err|good terrors c out]; simpl in Herr.
  - exists [], err. split; [done|by right].
  - destruct terrors as [|e terrors]; [done|].
    exists (e :: terrors), (TypeError_Error (e :: terrors)). split; [done|by left].
Qed.

End decoder_facts.

(* ===================================================================== *)
(** * Properties of the bootstrap protocol *)
(* ===================================================================== *)

(** ** The Config File Locator *)

(** Runs the iterations of the loop over the arguments [pre]. *)
Ltac skip_prefix pre fs Hfs :=
  match goal with
  | |- context [shiftAndRetry bootstrapFlagSet (pre ++ ?rest)] =>
    destruct (shiftAndRetry_app pre rest bootstrapFlagSet eq_refl) as (fs & Hfs & ->)
  end.

(** C1, as the code has it: the locator returns the value of the LAST
    argument that names an option.  Wherever the option stands in the
    argument list, in either spelling of the dashes, with the value after
    ['='] or (for the path) in the next argument, the locator returns the
    value supplied there, provided that no later argument names the same
    option again; an option that no argument names keeps its default. *)
Theorem locator_last_occurrence (pre post : list string) (dashes : string) :
  isDashes dashes →
  (∀ v, unmentioned configFileOption post →
     (parseConfigFileParameter
        (pre ++ (dashes ++ configFileOption ++ "=" ++ v) :: post)).1 = v)
  ∧ (∀ v, unmentioned configFileOption (v :: post) →
     (parseConfigFileParameter
        (pre ++ (dashes ++ configFileOption) :: v :: post)).1 = v)
  ∧ (unmentioned configExpandENV post →
     (parseConfigFileParameter
        (pre ++ (dashes ++ configExpandENV) :: post)).2 = true)
  ∧ (∀ b bv, strconv.ParseBool b = Some bv → unmentioned configExpandENV post →
     (parseConfigFileParameter
        (pre ++ (dashes ++ configExpandENV ++ "=" ++ b) :: post)).2 = bv)
  ∧ (unmentioned configFileOption post →
     (parseConfigFileParameter post).1 = "")
  ∧ (unmentioned configExpandENV post →
     (parseConfigFileParameter post).2 = false).
Proof.
  intros Hd. unfold parseConfigFileParameter, configFileOption, configExpandENV.
  repeat split; simpl.
  - intros v Hpost.
    skip_prefix pre fs Hfs.
    apply (shiftAndRetry_hit_str fs _ post 0 v Hfs); [|done].
    intros f Hf Hargs. by apply (parseOne_file_eq f dashes v post).
  - intros v Hpost.
    skip_prefix pre fs Hfs.
    apply (shiftAndRetry_hit_str fs _ (v :: post) 1 v Hfs); [|done].
    intros f Hf Hargs. by apply (parseOne_file_next f dashes v post).
  - intros Hpost.
    skip_prefix pre fs Hfs.
    apply (shiftAndRetry_hit_bool fs _ post 0 true Hfs); [|done].
    intros f Hf Hargs. by apply (parseOne_expand_bare f dashes post).
  - intros b bv Hb Hpost.
    skip_prefix pre fs Hfs.
    apply (shiftAndRetry_hit_bool fs _ post 0 bv Hfs); [|done].
    intros f Hf Hargs. by apply (parseOne_expand_eq f dashes b bv post).
  - intros Hpost.
    by destruct (shiftAndRetry_frame post bootstrapFlagSet eq_refl) as [-> _].
  - intros Hpost.
    by destruct (shiftAndRetry_frame post bootstrapFlagSet eq_refl) as [_ ->].
Qed.

(** A later argument overrides an option that stands before it, even an
    argument that the flag package would not read as an option: one after
    the [--] terminator, or one that is the value of another option. *)
Lemma locator_later_argument_wins :
  parseConfigFileParameter ["-config.file=a.yaml"; "--"; "-config.file=b.yaml"]
  = ("b.yaml", false)
  ∧ parseConfigFileParameter
      ["-config.expand-env"; "-config.file"; "-config.expand-env=false"]
    = ("-config.expand-env=false", false).
Proof. split; vm_compute; reflexivity. Qed.

Lemma locator_last_occurrence_witness :
  (parseConfigFileParameter
     (["-target=all"] ++ ("-" ++ configFileOption ++ "=" ++ "a.yaml") :: ["-x"])).1
  = "a.yaml".
Proof.
  apply (proj1 (locator_last_occurrence ["-target=all"] ["-x"] "-" (or_introl eq_refl))).
  repeat constructor.
Defined.

(** ** The Environment Expander *)

(** C6: each placeholder that follows literal text is replaced by what
    [resolve] gives for its name and default, cut at the first [':'], and
    the rest of the input is expanded after it; the default and the value
    are copied as they are.  [$name] gives what [${name}] gives.  And
    [resolve] is: the value of a variable that is set and not empty, the
    default for a variable that is not set or is empty, the empty string
    when no default was given either. *)
Theorem expandEnv_placeholder (env : gmap string string) (pre post : string) :
  noByte "$" pre →
  (∀ name, noByte ":" name → noByte "}" name →
     expandEnv env (pre ++ "${" ++ name ++ "}" ++ post)
     = pre ++ resolve env name None ++ expandEnv env post)
  ∧ (∀ name dflt, noByte ":" name → noByte "}" name → noByte "}" dflt →
     expandEnv env (pre ++ "${" ++ name ++ ":" ++ dflt ++ "}" ++ post)
     = pre ++ resolve env name (Some dflt) ++ expandEnv env post)
  ∧ (∀ name, bareName name → os.byteSat os.isAlphaNum post 0 = false →
     expandEnv env (pre ++ "$" ++ name ++ post)
     = pre ++ resolve env name None ++ expandEnv env post
     ∧ expandEnv env (pre ++ "$" ++ name ++ post)
       = expandEnv env (pre ++ "${" ++ name ++ "}" ++ post))
  ∧ (∀ name v dflt, name ≠ "" → env !! name = Some v → v ≠ "" →
     resolve env name dflt = v)
  ∧ (∀ name dflt, env !! name = None ∨ env !! name = Some "" →
     resolve env name (Some dflt) = dflt)
  ∧ (∀ name, env !! name = None ∨ env !! name = Some "" →
     resolve env name None = "").
Proof.
  intros Hpre.
  assert (∀ name, os.Getenv env name = resolve env name None) as Hnone.
  { intros name. unfold resolve. by case_bool_decide. }
  assert (∀ name, env !! name = None ∨ env !! name = Some "" →
            os.Getenv env name = "") as Hunset.
  { intros name Hname. unfold os.Getenv. case_bool_decide; [done|].
    by destruct Hname as [-> | ->]. }
  assert (∀ name, noByte ":" name → noByte "}" name →
    expandEnv env (pre ++ "${" ++ name ++ "}" ++ post)
    = pre ++ resolve env name None ++ expandEnv env post) as Hbraces.
  { intros name Hcolon Hbrace. unfold expandEnv. cbn [String.append].
    rewrite Expand_app_literal, Expand_braces by done. f_equal.
    case_bool_decide as Hname.
    - subst name. unfold resolve, os.Getenv. done.
    - by rewrite envMapping_name, Hnone. }
  split; [done|]. split; [|split; [|split; [|split]]].
  - intros name dflt Hcolon Hbrace Hdflt. unfold expandEnv. cbn [String.append].
    rewrite Expand_app_literal by done.
    replace (name ++ String ":" (dflt ++ String "}" post))
      with ((name ++ String ":" dflt) ++ String "}" post)
      by (by rewrite !append_assoc).
    rewrite Expand_braces by (apply noByte_app; split; [done|by apply noByte_cons]).
    rewrite bool_decide_eq_false_2 by (by destruct name).
    by rewrite envMapping_default.
  - intros name Hname Hpost.
    assert (expandEnv env (pre ++ "$" ++ name ++ post)
            = pre ++ resolve env name None ++ expandEnv env post) as ->.
    { unfold expandEnv. cbn [String.append].
      rewrite Expand_app_literal, Expand_bare by done.
      destruct Hname as (_ & Hall & _).
      rewrite envMapping_name by (by apply allSat_noByte). by rewrite Hnone. }
    split; [done|]. destruct Hname as (_ & Hall & _).
    rewrite Hbraces; [done|by apply allSat_noByte..].
  - intros name v dflt Hname Hv Hne. unfold resolve, os.Getenv.
    rewrite (bool_decide_eq_false_2 (name = "")), Hv by done. simpl.
    by rewrite bool_decide_eq_false_2.
  - intros name dflt Hname. unfold resolve.
    by rewrite (Hunset _ Hname), bool_decide_eq_true_2.
  - intros name Hname. unfold resolve.
    by rewrite (Hunset _ Hname), bool_decide_eq_true_2.
Qed.

Lemma expandEnv_placeholder_witness :
  expandEnv {[ "FOO" := "baz" ]} ("a: " ++ "${" ++ "FOO" ++ ":" ++ "bar" ++ "}" ++ " z")
  = "a: " ++ resolve {[ "FOO" := "baz" ]} "FOO" (Some "bar")
    ++ expandEnv {[ "FOO" := "baz" ]} " z".
Proof.
  apply (proj1 (proj2 (expandEnv_placeholder {[ "FOO" := "baz" ]} "a: " " z" eq_refl)));
    reflexivity.
Defined.

(** The bad brace forms are not kept: [${] without a closing brace and
    [${}] are dropped from the output. *)
Lemma expandEnv_drops_bad_braces :
  expandEnv ∅ "port: ${PORT" = "port: PORT"
  ∧ expandEnv ∅ "a${}b" = "ab"
  ∧ expandEnv ∅ "price: $5 or $$" = "price:  or ".
Proof. repeat split; vm_compute; reflexivity. Qed.

(** C7, as the code has it: the expander has a result for every input and
    consumes no byte past its end.  Text without a dollar is unchanged, a
    dollar that ends the input or stands before a byte that starts no name
    is kept, but the bad brace forms are dropped: [${}] altogether, and of
    [${] without a closing brace the two bytes, after which the expansion
    goes on with the text behind them. *)
Theorem expandEnv_total_and_literal (env : gmap string string) (pre : string) :
  noByte "$" pre →
  expandEnv env pre = pre
  ∧ expandEnv env (pre ++ "$") = pre ++ "$"
  ∧ (∀ c post, c ≠ "{"%char → os.isShellSpecialVar c = false →
       os.isAlphaNum c = false →
       expandEnv env (pre ++ "$" ++ String c post)
       = pre ++ "$" ++ String c (expandEnv env post))
  ∧ (∀ post, expandEnv env (pre ++ "${}" ++ post) = pre ++ expandEnv env post)
  ∧ (∀ rest, noByte "}" rest →
       expandEnv env (pre ++ "${" ++ rest) = pre ++ expandEnv env rest)
  ∧ (∀ s, s ≠ "" → ((os.getShellName s).2 ≤ len s)%nat).
Proof.
  intros Hpre. unfold expandEnv. cbn [String.append].
  split; [by apply Expand_noDollar|].
  split; [by rewrite Expand_app_literal, Expand_trailing_dollar|].
  split; [intros c post Hc Hsp Hal;
          by rewrite Expand_app_literal, Expand_lone_dollar|].
  split; [intros post; rewrite Expand_app_literal by done;
          by rewrite (Expand_braces _ "" post)|].
  split; [intros rest Hrest; by rewrite Expand_app_literal, Expand_unterminated|].
  apply getShellName_width.
Qed.

Lemma expandEnv_total_and_literal_witness :
  expandEnv ∅ "cost: " = "cost: "
  ∧ expandEnv ∅ ("cost: " ++ "$") = "cost: " ++ "$"
  ∧ expandEnv ∅ ("cost: " ++ "${" ++ "PORT") = "cost: " ++ expandEnv ∅ "PORT".
Proof.
  destruct (expandEnv_total_and_literal ∅ "cost: " eq_refl)
    as (H1 & H2 & _ & _ & H5 & _).
  split; [exact H1|]. split; [exact H2|]. apply (H5 "PORT"). reflexivity.
Defined.

(** C9: the locator terminates.  Each iteration of the shift-and-retry
    loop shortens the argument slice, each flag seen by [Parse] shortens
    the arguments left to parse, so the loop run with more fuel than there
    are arguments ends, with the result of [parseConfigFileParameter]; on
    the empty argument list that result is the empty path and false. *)
Theorem locator_terminates (args : list string) :
  (∀ fs st', shiftStep (fs, args) = Some st' → length st'.2 < length args)
  ∧ (∀ f f' err, flag.parseOne f = (f', true, err) →
       length (flag.args f') < length (flag.args f))
  ∧ (∀ fuel, length args < fuel →
       shiftLoop fuel (bootstrapFlagSet, args)
       = Some (shiftAndRetry bootstrapFlagSet args)
       ∧ (λ fs, (flag.strVar fs, flag.boolVar fs))
           <$> shiftLoop fuel (bootstrapFlagSet, args)
         = Some (parseConfigFileParameter args))
  ∧ parseConfigFileParameter [] = ("", false).
Proof.
  split; [|split; [|split]].
  - intros fs st'. destruct args as [|a args]; simpl; [done|].
    intros [= <-]. simpl. lia.
  - apply flag.parseOne_seen_shrinks.
  - assert (∀ fuel fs, length args < fuel →
              shiftLoop fuel (fs, args) = Some (shiftAndRetry fs args)) as Hloop.
    { induction args as [|a args IH]; intros [|fuel] fs Hfuel; simpl in *;
        try lia; [done|].
      apply IH. lia. }
    intros fuel Hfuel. split; [by apply Hloop|].
    by rewrite Hloop.
  - reflexivity.
Qed.

Lemma locator_terminates_witness :
  shiftLoop 3 (bootstrapFlagSet, ["-config.file"; "a.yaml"])
  = Some (shiftAndRetry bootstrapFlagSet ["-config.file"; "a.yaml"]).
Proof.
  apply (proj1 (proj2 (proj2 (locator_terminates ["-config.file"; "a.yaml"]))) 3).
  simpl. lia.
Defined.

(** ** The Config Loader *)

Section loader_properties.
Context `{External}.

(** C2: the fingerprint published by a load is that of the bytes read,
    whether or not expansion is enabled and whatever the environment, the
    configuration and the earlier state of the gauge vector are: two loads
    of the same bytes publish the same label. *)
Theorem fingerprint_expansion_independent
    (file1 file2 buf : string) (expand1 expand2 : bool) (cfg1 cfg2 : Config)
    (w1 w2 : World) :
  readResult w1 file1 = inl buf → readResult w2 file2 = inl buf →
  configHash (LoadConfig file1 expand1 cfg1 w1).2 = {[ fingerprint buf := 1%Z ]}
  ∧ configHash (LoadConfig file1 expand1 cfg1 w1).2
    = configHash (LoadConfig file2 expand2 cfg2 w2).2.
Proof.
  intros Hr1 Hr2.
  destruct (LoadConfig_read_success file1 expand1 cfg1 w1 buf Hr1) as (_ & -> & _).
  by destruct (LoadConfig_read_success file2 expand2 cfg2 w2 buf Hr2) as (_ & -> & _).
Qed.

(** C3, as the code has it: a load starts with the read.  When the read
    succeeds, the steps that follow are the reset and the set of the gauge
    vector, then the decoding, in this order; so the fingerprint of the
    bytes read is recorded whatever the decoder answers, and a decoding
    error comes back wrapped as a parse failure with the fingerprint still
    recorded.  When the read fails, whatever the file name, the load ends
    there: the error comes back wrapped as a read failure and the gauge
    vector is as it was. *)
Theorem fingerprint_before_decoding
    (filename : string) (expandENV : bool) (cfg : Config) (w : World) :
  let w' := (LoadConfig filename expandENV cfg w).2 in
  match readResult w filename with
  | inl buf =>
    let doc := document w expandENV buf in
    trace w' = (trace w ++ [evReadFile filename; evGaugeReset;
                            evGaugeSet (fingerprint buf) 1; evUnmarshal doc])%list
    ∧ configHash w' = {[ fingerprint buf := 1%Z ]}
    ∧ (∀ cause, (UnmarshalStrict doc cfg).2 = Some cause →
         (LoadConfig filename expandENV cfg w).1.2
         = Some (errors.Wrap cause "Error parsing config file"))
  | inr err =>
    trace w' = (trace w ++ [evReadFile filename])%list
    ∧ configHash w' = configHash w
    ∧ (LoadConfig filename expandENV cfg w).1
      = (cfg, Some (errors.Wrap err "Error reading config file"))
  end.
Proof.
  intros w'. subst w'. destruct (readResult w filename) as [buf|err] eqn:Hr.
  - destruct (LoadConfig_read_success filename expandENV cfg w buf Hr)
      as (Hres & Hhash & Htrace & _).
    cbv zeta in *. split; [done|]. split; [done|].
    intros cause Hcause. by rewrite Hres, Hcause.
  - by rewrite (LoadConfig_read_failure filename expandENV cfg w err Hr).
Qed.

(** C8: after a load that read its file, the gauge vector holds exactly
    one label, the fingerprint of the bytes just read, with the value 1,
    whatever it held before; a second load leaves the fingerprint of the
    second file alone. *)
Theorem configHash_single_label
    (file1 file2 buf1 buf2 : string) (expand1 expand2 : bool)
    (cfg1 cfg2 : Config) (w : World) :
  readResult w file1 = inl buf1 → readResult w file2 = inl buf2 →
  let w1 := (LoadConfig file1 expand1 cfg1 w).2 in
  let w2 := (LoadConfig file2 expand2 cfg2 w1).2 in
  configHash w1 = {[ fingerprint buf1 := 1%Z ]}
  ∧ map_to_list (configHash w1) = [(fingerprint buf1, 1%Z)]
  ∧ configHash w2 = {[ fingerprint buf2 := 1%Z ]}
  ∧ map_to_list (configHash w2) = [(fingerprint buf2, 1%Z)].
Proof.
  intros Hr1 Hr2 w1 w2.
  destruct (LoadConfig_read_success file1 expand1 cfg1 w buf1 Hr1)
    as (_ & Hhash1 & _ & _ & Hfiles & _).
  assert (readResult w1 file2 = inl buf2) as Hr2'.
  { unfold readResult, ReadFile in *; simpl in *. fold w1 in Hfiles.
    by rewrite Hfiles. }
  destruct (LoadConfig_read_success file2 expand2 cfg2 w1 buf2 Hr2')
    as (_ & Hhash2 & _).
  fold w1 in Hhash1. fold w2 in Hhash2. rewrite Hhash1, Hhash2.
  by rewrite !map_to_list_singleton.
Qed.

(** C10: [LoadConfig] has no guard for the empty file name: the read is
    attempted and fails, the error comes back wrapped as a read failure,
    the configuration is the one passed in, and the gauge vector is not
    touched. *)
Theorem LoadConfig_empty_filename (expandENV : bool) (cfg : Config) (w : World) :
  LoadConfig "" expandENV cfg w
  = ((cfg, Some (errors.Wrap
                   (errors.PathError "open" "" "no such file or directory")
                   "Error reading config file")),
     log (evReadFile "") w)
  ∧ configHash (LoadConfig "" expandENV cfg w).2 = configHash w
  ∧ trace (LoadConfig "" expandENV cfg w).2 = (trace w ++ [evReadFile ""])%list.
Proof.
  assert (readResult w "" = inr (errors.PathError "open" "" "no such file or directory"))
    as Hr by done.
  by rewrite (LoadConfig_read_failure "" expandENV cfg w _ Hr).
Qed.

End loader_properties.

(** A read that fails publishes nothing, also for a file name that is not
    empty: the label of the earlier load stays. *)
Lemma LoadConfig_missing_file_publishes_nothing :
  (@LoadConfig exampleExternal "missing.yaml" false "" (exampleWorld [] "a: 1")).1
  = ("", Some (errors.Wrap
                 (errors.PathError "open" "missing.yaml" "no such file or directory")
                 "Error reading config file"))
  ∧ configHash (@LoadConfig exampleExternal "missing.yaml" false "" (exampleWorld [] "a: 1")).2
    = {[ ["0badc0de"] := 1%Z ]}
  ∧ trace (@LoadConfig exampleExternal "missing.yaml" false "" (exampleWorld [] "a: 1")).2
    = [evReadFile "missing.yaml"].
Proof.
  assert (readResult (exampleWorld [] "a: 1") "missing.yaml"
          = inr (errors.PathError "open" "missing.yaml" "no such file or directory"))
    as Hr by (vm_compute; reflexivity).
  by rewrite (@LoadConfig_read_failure exampleExternal "missing.yaml" false "" _ _ Hr).
Qed.

Lemma fingerprint_expansion_independent_witness :
  configHash (@LoadConfig exampleExternal "cfg.yaml" true "" (exampleWorld [] "greeting: ${NAME:world}")).2
  = configHash (@LoadConfig exampleExternal "cfg.yaml" false "old"
                  (mkWorld [] {[ "cfg.yaml" := inl "greeting: ${NAME:world}" ]}
                           ∅ true ∅ [] "" [])).2.
Proof.
  apply (@fingerprint_expansion_independent exampleExternal
           "cfg.yaml" "cfg.yaml" "greeting: ${NAME:world}" true false "" "old").
  - vm_compute; reflexivity.
  - vm_compute; reflexivity.
Defined.

Lemma fingerprint_before_decoding_witness :
  configHash (@LoadConfig exampleExternal "cfg.yaml" false ""
                (exampleWorld [] "bogus: 1")).2
  = {[ fingerprint "bogus: 1" := 1%Z ]}
  ∧ (@LoadConfig exampleExternal "cfg.yaml" false ""
       (exampleWorld [] "bogus: 1")).1.2
    = Some (errors.Wrap
              (errors.External "yaml: unmarshal errors: field bogus not found")
              "Error parsing config file").
Proof.
  pose proof (@fingerprint_before_decoding exampleExternal "cfg.yaml" false ""
                (exampleWorld [] "bogus: 1")) as Hload.
  cbv zeta in Hload.
  replace (readResult (exampleWorld [] "bogus: 1") "cfg.yaml")
    with (inl "bogus: 1" : string + errors.error) in Hload
    by (vm_compute; reflexivity).
  destruct Hload as (_ & Hhash & Hfail). split; [exact Hhash|].
  apply Hfail. vm_compute; reflexivity.
Defined.

Lemma configHash_single_label_witness :
  configHash (@LoadConfig exampleExternal "cfg.yaml" true "" (exampleWorld [] "a: 1")).2
  = {[ fingerprint "a: 1" := 1%Z ]}.
Proof.
  apply (@configHash_single_label exampleExternal "cfg.yaml" "cfg.yaml" "a: 1" "a: 1" true true "" ""
           (exampleWorld [] "a: 1")); vm_compute; reflexivity.
Defined.

Section strict_decoding.
Context `{yaml.Library} `{Target}.

(** C5: with the strict decoder of the package, a document that holds a
    field unknown to the schema makes the load fail, with the decoder's
    error wrapped as a parse failure.  The document is the bytes handed to
    the decoder, after the expansion when it is enabled; it holds an
    unknown field when the tree the parser builds for it has, at the top
    or below fields of structs, merged mappings, elements of slices and
    arrays, pointers and aliases, a mapping that is decoded into a struct
    without inline map and has a key that names no field of the struct.
    The cause is the type error of the decoder, which lists what it found,
    or the failure that ended the decoding. *)
Theorem LoadConfig_rejects_unknown_field
    (filename buf : string) (expandENV : bool) (cfg : value) (w : World)
    (n : yaml.node) :
  readResult w filename = inl buf →
  yaml.parse (document w expandENV buf) = yaml.parsedDocument n →
  unknownField schema n →
  ∃ terrors err,
    (@LoadConfig yamlExternal filename expandENV cfg w).1.2
    = Some (errors.Wrap (errors.External err) "Error parsing config file")
    ∧ errors.Cause (errors.Wrap (errors.External err) "Error parsing config file")
      = errors.External err
    ∧ (err = yaml.TypeError_Error terrors ∧ terrors ≠ []
       ∨ yaml.unmarshal true n schema (yaml.mkCounts 0 0 0) = yaml.failed err).
Proof.
  intros Hr Hparse Hn.
  destruct (unmarshalError_unknownField schema _ n Hparse Hn)
    as (terrors & err & Herr & Hcause).
  exists terrors, err.
  destruct (@LoadConfig_read_success yamlExternal filename expandENV cfg w buf Hr)
    as (Hres & _).
  cbv zeta in Hres. rewrite Hres. simpl. by rewrite Herr.
Qed.

End strict_decoding.

(** The field [bogus] is not in the schema: the load fails, and the cause
    names the field. *)
Lemma LoadConfig_rejects_unknown_field_witness :
  ∃ terrors err,
    (@LoadConfig (@yamlExternal exampleLibrary exampleTarget) "cfg.yaml" true ""
       (exampleWorld [] "bogus: ${NAME}")).1.2
    = Some (errors.Wrap (errors.External err) "Error parsing config file")
    ∧ errors.Cause (errors.Wrap (errors.External err) "Error parsing config file")
      = errors.External err
    ∧ (err = yaml.TypeError_Error terrors ∧ terrors ≠ []
       ∨ @yaml.unmarshal exampleLibrary true
           (yaml.documentNode 0
              [yaml.mappingNode 0
                 [(yaml.scalarNode 0 "" "bogus" true,
                   yaml.scalarNode 0 "" "there" true)]])
           (@schema exampleTarget) (yaml.mkCounts 0 0 0)
         = yaml.failed err).
Proof.
  apply (@LoadConfig_rejects_unknown_field exampleLibrary exampleTarget
           "cfg.yaml" "bogus: ${NAME}").
  - vm_compute; reflexivity.
  - vm_compute; reflexivity.
  - apply (@unknown_in_document exampleLibrary).
    apply (@unknown_key exampleLibrary _ "cortex.Config"
             [("target", yaml.Basic "string")] _ _
             (yaml.scalarNode 0 "" "bogus" true) (yaml.scalarNode 0 "" "there" true)
             "bogus").
    + reflexivity.
    + by left.
    + reflexivity.
    + by intros [[=]|[]%elem_of_nil]%elem_of_cons.
Defined.

Example strict_decoding_message :
  errors.Error <$>
    (@LoadConfig (@yamlExternal exampleLibrary exampleTarget) "cfg.yaml" true ""
       (exampleWorld [] "bogus: ${NAME}")).1.2
  = Some ("Error parsing config file: yaml: unmarshal errors:" ++ newline
          ++ "  line 1: field bogus not found in type cortex.Config")
  ∧ (@LoadConfig (@yamlExternal exampleLibrary exampleTarget) "cfg.yaml" true ""
       (exampleWorld [] "target: ${NAME}")).1.2
    = None.
Proof. split; vm_compute; reflexivity. Qed.

(** ** The Bootstrap Orchestrator *)

Section orchestrator_properties.
Context `{External}.

(** C4: in a world where the flags of the configuration can be registered,
    so that [main] comes to the load: when the locator found a path and
    the load fails, by the read or by the decoding, [main] writes to the
    standard error one line with the path and the error, which holds the
    cause, and then exits with status 1, or returns when the test mode is
    set; when the load succeeds or no path was given, and nothing else has
    registered the two flags of the locator, [main] returns and writes
    nothing.  The test mode is never changed. *)
Theorem main_exit_policy (w : World) (configFile : string) (expandENV : bool) :
  parseConfigFileParameter (osArgs w) = (configFile, expandENV) →
  registrable w (RegisterFlags zeroConfig).2 →
  let cfg := (RegisterFlags zeroConfig).1 in
  let report cause :=
    stderr w ++ "error loading config from " ++ configFile ++ ": "
    ++ cause ++ newline in
  (∀ cause, configFile ≠ "" → readResult w configFile = inr cause →
     (main w).1 = (if testMode w then returned else exited 1)
     ∧ stderr (main w).2
       = report ("Error reading config file: " ++ errors.Error cause))
  ∧ (∀ buf cause, configFile ≠ "" → readResult w configFile = inl buf →
     (UnmarshalStrict (document w expandENV buf) cfg).2 = Some cause →
     (main w).1 = (if testMode w then returned else exited 1)
     ∧ stderr (main w).2
       = report ("Error parsing config file: " ++ errors.Error cause))
  ∧ (∀ buf, configFile ≠ "" → readResult w configFile = inl buf →
     (UnmarshalStrict (document w expandENV buf) cfg).2 = None →
     bootstrapFlagsFresh w →
     (main w).1 = returned ∧ stderr (main w).2 = stderr w)
  ∧ (configFile = "" → bootstrapFlagsFresh w →
     (main w).1 = returned ∧ stderr (main w).2 = stderr w
     ∧ trace (main w).2 = trace w)
  ∧ testMode (main w).2 = testMode w.
Proof.
  intros Hparse Hreg cfg report. rewrite main_run, Hparse by done.
  cbv zeta. simpl fst; simpl snd.
  fold cfg. set (w0 := set_commandLine _ w).
  assert (∀ cause, readResult w configFile = inr cause →
    LoadConfig configFile expandENV cfg w0
    = ((cfg, Some (errors.Wrap cause "Error reading config file")),
       log (evReadFile configFile) w0)) as Hfail.
  { intros cause Hr. by apply LoadConfig_read_failure. }
  assert (∀ buf, readResult w configFile = inl buf →
    (LoadConfig configFile expandENV cfg w0).1.2
    = (λ e, errors.Wrap e "Error parsing config file")
        <$> (UnmarshalStrict (document w expandENV buf) cfg).2
    ∧ testMode (LoadConfig configFile expandENV cfg w0).2 = testMode w
    ∧ stderr (LoadConfig configFile expandENV cfg w0).2 = stderr w
    ∧ commandLine (LoadConfig configFile expandENV cfg w0).2 = commandLine w0) as Hok.
  { intros buf Hr.
    destruct (LoadConfig_read_success configFile expandENV cfg w0 buf Hr)
      as (Hres & _ & _ & _ & _ & _ & Htest & Hcl & Herr).
    cbv zeta in Hres. by rewrite Hres. }
  assert (∀ w1, bootstrapFlagsFresh w → commandLine w1 = commandLine w0 →
            ignoreBootstrapFlags w1 = (returned, ignoredFlags w1)) as Hend.
  { intros w1 [Hfile Hexpand] Hcl. unfold registeredNames in *.
    rewrite <- fmap_app in Hfile, Hexpand.
    rewrite ignoreBootstrapFlags_run, Hcl. by rewrite !bool_decide_eq_false_2. }
  split; [|split; [|split; [|split]]].
  - intros cause Hfile Hr. rewrite bool_decide_eq_true_2 by done.
    rewrite (Hfail _ Hr). simpl. split; [done|].
    subst report. simpl. by rewrite ?append_assoc.
  - intros buf cause Hfile Hr Hdec. rewrite bool_decide_eq_true_2 by done.
    destruct (Hok _ Hr) as (-> & -> & Herr & _). rewrite Hdec. simpl.
    split; [done|]. subst report. simpl. by rewrite Herr, ?append_assoc.
  - intros buf Hfile Hr Hdec Hfresh. rewrite bool_decide_eq_true_2 by done.
    destruct (Hok _ Hr) as (-> & _ & Herr & Hcl). rewrite Hdec. simpl.
    by rewrite Hend.
  - intros -> Hfresh. rewrite bool_decide_eq_false_2 by (by intros ?).
    by rewrite Hend.
  - case_bool_decide as Hfile.
    + destruct (readResult w configFile) as [buf|cause] eqn:Hr.
      * destruct (Hok _ eq_refl) as (-> & Htest & _).
        destruct (UnmarshalStrict _ cfg).2; simpl; [done|].
        by destruct (ignoreBootstrapFlags_frame
                       (LoadConfig configFile expandENV cfg w0).2) as (-> & _).
      * by rewrite (Hfail _ eq_refl).
    + by destruct (ignoreBootstrapFlags_frame w0) as (-> & _).
Qed.

End orchestrator_properties.

Lemma main_exit_policy_witness :
  (@main exampleExternal (exampleWorld ["-config.file=cfg.yaml"] "bogus: 1")).1
  = exited 1
  ∧ stderr (@main exampleExternal (exampleWorld ["-config.file=cfg.yaml"] "bogus: 1")).2
    = "error loading config from cfg.yaml: Error parsing config file: yaml: unmarshal errors: field bogus not found"
      ++ newline.
Proof.
  destruct (@main_exit_policy exampleExternal
              (exampleWorld ["-config.file=cfg.yaml"] "bogus: 1") "cfg.yaml" false)
    as (_ & Hparse & _);
    [vm_compute; reflexivity|repeat split; [constructor..|by intros ? ?%elem_of_nil]|].
  apply (Hparse "bogus: 1"
           (errors.External "yaml: unmarshal errors: field bogus not found"));
    [done|vm_compute; reflexivity..].
Defined.

(** ** The scenarios of the specification *)

(** [cfg.yaml] holds [greeting: "${NAME:world}"], expansion is enabled and
    [NAME] is not set: the decoder receives [greeting: "world"], and
    [main] returns. *)
Example scenario_greeting :
  let w := mkWorld ["-config.expand-env"; "-config.file"; "cfg.yaml"]
                   {[ "cfg.yaml" := inl "greeting: ${NAME:world}" ]} ∅ false ∅ [] "" [] in
  (@main exampleExternal w).1 = returned
  ∧ trace (@main exampleExternal w).2
    = [evReadFile "cfg.yaml"; evGaugeReset;
       evGaugeSet
         ["063586c2cb77bb153e9bf38aa56dda0e99ac9997f5c86c7d093c5d36720d72fd"] 1;
       evUnmarshal "greeting: world"].
Proof. split; vm_compute; reflexivity. Qed.

(** The path [missing.yaml] names no file: a read failure, exit status 1,
    and nothing published. *)
Example scenario_missing :
  let w := mkWorld ["-config.file=missing.yaml"] ∅ ∅ false ∅ [] "" [] in
  (@main exampleExternal w).1 = exited 1
  ∧ configHash (@main exampleExternal w).2 = ∅
  ∧ stderr (@main exampleExternal w).2
    = "error loading config from missing.yaml: Error reading config file: open missing.yaml: no such file or directory"
      ++ newline.
Proof. repeat split; vm_compute; reflexivity. Qed.

(** The round trip of the expander: [${FOO:bar}] with [FOO] unset and with
    [FOO=baz], [${FOO}] with [FOO] empty or unset, and [$FOO]. *)
Example scenario_expander :
  expandEnv ∅ "${FOO:bar}" = "bar"
  ∧ expandEnv {[ "FOO" := "baz" ]} "${FOO:bar}" = "baz"
  ∧ expandEnv {[ "FOO" := "" ]} "${FOO}" = ""
  ∧ expandEnv ∅ "${FOO}" = ""
  ∧ expandEnv {[ "FOO" := "baz" ]} "$FOO" = expandEnv {[ "FOO" := "baz" ]} "${FOO}".
Proof. repeat split; vm_compute; reflexivity. Qed.

(** The locator on the empty argument list, and with the options at the
    start, in the middle and at the end of arguments it does not know. *)
Example scenario_locator :
  parseConfigFileParameter [] = ("", false)
  ∧ parseConfigFileParameter ["-config.file=c.yaml"; "-target=all"; "-v"]
    = ("c.yaml", false)
  ∧ parseConfigFileParameter ["-target=all"; "-config.file"; "c.yaml"; "-v"]
    = ("c.yaml", false)
  ∧ parseConfigFileParameter
      ["-target=all"; "-config.expand-env=true"; "-v"; "--config.file=c.yaml"]
    = ("c.yaml", true).
Proof. repeat split; vm_compute; reflexivity. Qed.

(* ===================================================================== *)
(** * Further properties of the code *)
(* ===================================================================== *)

(** ** The locator *)

(** The path after the loop when [-config.file=v] is the last argument to
    name the option. *)
Lemma locator_path_of_last pre post dashes v :
  isDashes dashes → unmentioned configFileOption post →
  (parseConfigFileParameter
     (pre ++ (dashes ++ configFileOption ++ "=" ++ v) :: post)).1 = v.
Proof.
  intros Hd Hpost. unfold parseConfigFileParameter, configFileOption. simpl.
  skip_prefix pre fs Hfs.
  apply (shiftAndRetry_hit_str fs _ post 0 v Hfs); [|done].
  intros f Hf Hargs. by apply (parseOne_file_eq f dashes v post).
Qed.

(** X1: the locator, which parses every suffix of the arguments, returns
    what one scan of the arguments returns: for the path the value of the
    last argument that names the option and has a value (after ['='], or
    the argument behind it, whatever that is), for the boolean the value of
    the last argument that names it (true without a value, false for a
    value that spells no boolean), and the defaults when there is none. *)
Theorem locator_is_one_scan (args : list string) :
  parseConfigFileParameter args = locate args.
Proof.
  unfold parseConfigFileParameter, locate.
  by rewrite shiftAndRetry_path, shiftAndRetry_bool.
Qed.

(** X2: a value of [-config.expand-env=] that spells no boolean does not
    leave the flag as it was: when it is the last argument to name the
    option the locator returns false, also after an argument that had set
    it to true. *)
Theorem locator_invalid_boolean_is_false
    (pre post : list string) (dashes b : string) :
  isDashes dashes → strconv.ParseBool b = None →
  unmentioned configExpandENV post →
  (parseConfigFileParameter
     (pre ++ (dashes ++ configExpandENV ++ "=" ++ b) :: post)).2 = false.
Proof.
  intros Hd Hb Hpost. unfold parseConfigFileParameter, configExpandENV. simpl.
  skip_prefix pre fs Hfs.
  match goal with |- context [?t :: post] => set (tok := t) end.
  cbn [shiftAndRetry].
  destruct (Parse_frame (tok :: post) fs Hfs) as (Hf & _).
  destruct (shiftAndRetry_frame post (flag.Parse (tok :: post) fs).1)
    as [_ Hrest]; [congruence|]. rewrite Hrest by done.
  unfold flag.Parse. rewrite parseLoop_step.
  by destruct (parseOne_expand_invalid
                 (flag.set_args (tok :: post) (flag.set_parsed true fs))
                 dashes b post Hfs Hd Hb eq_refl)
    as (f' & err & -> & Hbool).
Qed.

Lemma locator_invalid_boolean_is_false_witness :
  (parseConfigFileParameter
     (["-config.expand-env"] ++ ("-" ++ configExpandENV ++ "=" ++ "yes") :: ["-v"])).2
  = false.
Proof.
  apply (locator_invalid_boolean_is_false ["-config.expand-env"] ["-v"] "-" "yes").
  - by left.
  - reflexivity.
  - repeat constructor.
Defined.

(** Where the scan takes a path from. *)
Lemma lastPath_from_arguments args v :
  lastPath args = Some v →
  ∃ t, t ∈ args
       ∧ (v = t ∨ ∃ dashes, isDashes dashes ∧ t = dashes ++ configFileOption ++ "=" ++ v).
Proof.
  revert v. induction args as [|t rest IH]; intros v; cbn [lastPath]; [done|].
  destruct (lastPath rest) as [v'|] eqn:Hrest.
  - intros [= <-]. destruct (IH v' eq_refl) as (t' & Hin & Ht').
    exists t'. split; [by right|done].
  - destruct (tokenValue configFileOption t) as [[v'|]|] eqn:Ht; [| |done].
    + intros [= <-]. exists t. split; [by left|]. right.
      by apply tokenValue_value.
    + destruct rest as [|t' rest']; cbn [head]; [done|]. intros [= <-].
      exists t'. split; [by right; left|by left].
Qed.

(** X3: the locator never makes up a path: the path it returns is empty,
    or an argument, or what follows [-config.file=] or [--config.file=] in
    an argument. *)
Theorem locator_path_from_arguments (args : list string) :
  (parseConfigFileParameter args).1 = ""
  ∨ ∃ t, t ∈ args
         ∧ ((parseConfigFileParameter args).1 = t
            ∨ ∃ dashes, isDashes dashes
                ∧ t = dashes ++ configFileOption ++ "=" ++ (parseConfigFileParameter args).1).
Proof.
  unfold parseConfigFileParameter. simpl. rewrite shiftAndRetry_path by done.
  destruct (lastPath args) as [v|] eqn:Hv; [right|by left].
  by apply lastPath_from_arguments.
Qed.

(** ** The expander *)

(** X4: for the expander a variable set to the empty string is a variable
    that is not set: whatever the text, setting [key] to the empty string
    and removing [key] from the environment give the same expansion. *)
Theorem expandEnv_empty_is_unset
    (env : gmap string string) (key config : string) :
  expandEnv (<[key := ""]> env) config = expandEnv (delete key env) config.
Proof.
  unfold expandEnv. apply Expand_ext. intros k. unfold envMapping.
  by rewrite Getenv_empty_unset.
Qed.

(** X5: a dollar before one of the bytes [*#$@!?-0123456789] is a
    placeholder of that one byte: the two bytes are replaced by the value
    of the environment variable with this name, which is the empty string
    when there is none, so that [$5] and [$$] vanish from a configuration;
    the expansion goes on with the text behind them. *)
Theorem expandEnv_special_variable
    (env : gmap string string) (pre post : string) (c : ascii) :
  noByte "$" pre → os.isShellSpecialVar c = true →
  expandEnv env (pre ++ "$" ++ String c post)
  = pre ++ os.Getenv env (String c "") ++ expandEnv env post.
Proof.
  intros Hpre Hc. unfold expandEnv. cbn [String.append].
  rewrite Expand_app_literal, Expand_special by done.
  rewrite envMapping_name; [done|].
  apply noByte_cons. split; [|done]. intros ->. done.
Qed.

Lemma expandEnv_special_variable_witness :
  expandEnv ∅ ("price: " ++ "$" ++ String "5" " each")
  = "price: " ++ os.Getenv ∅ (String "5" "") ++ expandEnv ∅ " each".
Proof.
  apply (expandEnv_special_variable ∅ "price: " " each" "5"); reflexivity.
Defined.

(** ** The loader *)

Section loader_results.
Context `{External}.

(** X6: a load returns no error exactly when the read gave the bytes of
    the file and the decoder accepted the document made of them.  After a
    read that gave bytes, the configuration is the one the decoder left,
    also when the decoder returned an error. *)
Theorem LoadConfig_succeeds_iff
    (filename : string) (expandENV : bool) (cfg : Config) (w : World) :
  ((LoadConfig filename expandENV cfg w).1.2 = None
   ↔ ∃ buf, readResult w filename = inl buf
            ∧ (UnmarshalStrict (document w expandENV buf) cfg).2 = None)
  ∧ (∀ buf, readResult w filename = inl buf →
       (LoadConfig filename expandENV cfg w).1.1
       = (UnmarshalStrict (document w expandENV buf) cfg).1).
Proof.
  destruct (readResult w filename) as [buf|err] eqn:Hr.
  - destruct (LoadConfig_read_success filename expandENV cfg w buf Hr) as (Hres & _).
    cbv zeta in Hres. rewrite Hres. simpl. split.
    + split.
      * intros Hnone. exists buf. split; [done|].
        by destruct (UnmarshalStrict _ cfg).2.
      * intros (buf' & [= <-] & ->). done.
    + by intros buf' [= <-].
  - rewrite (LoadConfig_read_failure filename expandENV cfg w err Hr). simpl.
    split; [|done]. split; [done|]. by intros (buf & ? & _).
Qed.

(** X7: what a load leaves alone.  Whatever the file and the decoder do, a
    load changes neither the arguments, the files, the environment, the
    test mode nor the flags registered on the command line, and it writes
    nothing to the standard error; the steps taken before it stay, and its
    first step is the read of the file. *)
Theorem LoadConfig_frame
    (filename : string) (expandENV : bool) (cfg : Config) (w : World) :
  let w' := (LoadConfig filename expandENV cfg w).2 in
  osArgs w' = osArgs w ∧ files w' = files w ∧ environ w' = environ w
  ∧ testMode w' = testMode w ∧ commandLine w' = commandLine w
  ∧ stderr w' = stderr w
  ∧ ∃ steps, trace w' = (trace w ++ evReadFile filename :: steps)%list.
Proof.
  intros w'. subst w'. destruct (readResult w filename) as [buf|err] eqn:Hr.
  - destruct (LoadConfig_read_success filename expandENV cfg w buf Hr)
      as (_ & _ & Htrace & ? & ? & ? & ? & ? & ?).
    cbv zeta in *. repeat (split; [done|]). by eexists.
  - rewrite (LoadConfig_read_failure filename expandENV cfg w err Hr). simpl.
    repeat (split; [done|]). by exists [].
Qed.

(** X8: on a file without a dollar the expansion switch makes no
    difference: the load with expansion and the load without give the same
    result and leave the same world. *)
Theorem LoadConfig_expansion_idle
    (filename buf : string) (cfg : Config) (w : World) :
  readResult w filename = inl buf → noByte "$" buf →
  LoadConfig filename true cfg w = LoadConfig filename false cfg w.
Proof.
  unfold readResult, LoadConfig, bind.
  destruct (ReadFile filename w) as [r w'] eqn:Hr. simpl. intros -> Hno.
  unfold expandEnv. by rewrite Expand_noDollar.
Qed.

End loader_results.

Lemma LoadConfig_expansion_idle_witness :
  @LoadConfig exampleExternal "cfg.yaml" true "" (exampleWorld [] "a: 1")
  = @LoadConfig exampleExternal "cfg.yaml" false "" (exampleWorld [] "a: 1").
Proof.
  apply (@LoadConfig_expansion_idle exampleExternal "cfg.yaml" "a: 1").
  - vm_compute; reflexivity.
  - reflexivity.
Defined.

(** X9: the label published for a file is the digest of its bytes written
    as 64 lowercase hexadecimal digits, two for each byte, and the digest
    can be read back from it: two files have the same label exactly when
    they have the same digest. *)
Theorem fingerprint_label (buf1 buf2 : string) :
  (fingerprint buf1 = fingerprint buf2 ↔ sha256.Sum256 buf1 = sha256.Sum256 buf2)
  ∧ ∃ label, fingerprint buf1 = [label]
             ∧ String.length label = 64
             ∧ allSat isLowerHex label = true.
Proof.
  unfold fingerprint. split.
  - split; [|by intros ->]. intros [= Heq]. by apply Sprintf_x_inj.
  - eexists. split; [done|]. split; [|apply Sprintf_x_alphabet].
    by rewrite Sprintf_x_length, Sum256_length.
Qed.

(** ** The orchestrator *)

Section orchestrator_results.
Context `{External}.

(** X10: in a world where the flags of the configuration can be registered
    and nothing else has registered the two flags of the locator, [main]
    registers on the command line first the flags of the configuration,
    before any load, and at its end the two flags of the locator,
    [config.file] and [config.expand-env], so that the later parse of the
    command line accepts them; it registers these two exactly when it has
    reported no error.  After a failed load they are missing, also in the
    test mode, where [main] returns. *)
Theorem main_registers_flags (w : World) :
  registrable w (RegisterFlags zeroConfig).2 → bootstrapFlagsFresh w →
  commandLine (main w).2
  = (commandLine w ++ (RegisterFlags zeroConfig).2 ++
     (if bool_decide (stderr (main w).2 = stderr w)
      then [(configFileOption, "Configuration file to load.");
            (configExpandENV,
             "Expands ${var} or $var in config according to the values of the environment variables.")]
      else []))%list.
Proof.
  intros Hreg Hfresh. rewrite main_run_fresh by done. cbv zeta.
  destruct (parseConfigFileParameter (osArgs w)) as [path expandENV].
  destruct (RegisterFlags zeroConfig) as [cfg registered]. simpl fst; simpl snd.
  case_bool_decide as Hpath.
  - destruct (LoadConfig_in_main w path expandENV cfg (commandLine w ++ registered))
      as (_ & Herr & Hcl & _). cbv zeta in *.
    destruct (LoadConfig path expandENV cfg _) as [[cfg' [err|]] w1]; simpl in *.
    + rewrite bool_decide_eq_false_2; [by rewrite Hcl, app_nil_r|].
      rewrite Herr. by intros ?%append_same_l.
    + rewrite bool_decide_eq_true_2 by done. by rewrite Hcl, <- app_assoc.
  - simpl. rewrite bool_decide_eq_true_2 by done. by rewrite <- app_assoc.
Qed.

(** X11: an empty path given last cancels a path given before it.  When
    the last argument that names [config.file] is [-config.file=] with
    nothing behind the equals sign, [main] does what it does without a
    configuration file: it reads no file, leaves the gauge vector alone
    and, where the flags of the configuration can be registered and
    nothing else has registered those of the locator, writes no error and
    returns. *)
Theorem main_empty_path_cancels
    (w : World) (pre post : list string) (dashes : string) :
  isDashes dashes → unmentioned configFileOption post →
  osArgs w = (pre ++ (dashes ++ configFileOption ++ "=")%string :: post)%list →
  registrable w (RegisterFlags zeroConfig).2 → bootstrapFlagsFresh w →
  (main w).1 = returned
  ∧ trace (main w).2 = trace w
  ∧ configHash (main w).2 = configHash w
  ∧ stderr (main w).2 = stderr w.
Proof.
  intros Hd Hpost Hargs Hreg Hfresh.
  pose proof (locator_path_of_last pre post dashes "" Hd Hpost) as Hpath.
  rewrite main_run_fresh, Hargs by done. cbv zeta.
  change (dashes ++ configFileOption ++ "=" ++ "")
    with (dashes ++ configFileOption ++ "=") in Hpath.
  rewrite Hpath. by rewrite bool_decide_eq_false_2 by (by intros ?).
Qed.

(** X12: from the command line to the decoder.  In a world where the
    flags of the configuration can be registered: when the last argument
    that names [config.file] is [-config.file=path], with a path that is
    not empty and names a readable file, [main] reads that file, replaces
    what the gauge vector held by the fingerprint of its bytes, and hands
    to the decoder the document made of them with the expansion switch the
    locator found; and, when nothing else has registered the flags of the
    locator, it returns exactly when the decoder accepts the document or
    the test mode is set. *)
Theorem main_loads_last_path
    (w : World) (pre post : list string) (dashes path buf : string) :
  isDashes dashes → unmentioned configFileOption post →
  osArgs w = (pre ++ (dashes ++ configFileOption ++ "=" ++ path)%string :: post)%list →
  path ≠ "" → files w !! path = Some (inl buf) →
  registrable w (RegisterFlags zeroConfig).2 →
  let doc := document w (parseConfigFileParameter (osArgs w)).2 buf in
  trace (main w).2
  = (trace w ++ [evReadFile path; evGaugeReset;
                 evGaugeSet (fingerprint buf) 1; evUnmarshal doc])%list
  ∧ configHash (main w).2 = {[ fingerprint buf := 1%Z ]}
  ∧ (bootstrapFlagsFresh w →
     ((main w).1 = returned
      ↔ testMode w = true
        ∨ (UnmarshalStrict doc (RegisterFlags zeroConfig).1).2 = None)).
Proof.
  intros Hd Hpost Hargs Hne Hfile Hreg doc. subst doc.
  pose proof (locator_path_of_last pre post dashes path Hd Hpost) as Hpath.
  rewrite <- Hargs in Hpath.
  pose proof (main_run w Hreg) as Hrun. cbv zeta in Hrun.
  pose proof (main_run_fresh w Hreg) as Hrun'. cbv zeta in Hrun'.
  destruct (parseConfigFileParameter (osArgs w)) as [path' expandENV].
  simpl in Hpath. subst path'.
  destruct (RegisterFlags zeroConfig) as [cfg registered]. simpl fst in *; simpl snd in *.
  rewrite bool_decide_eq_true_2 in Hrun, Hrun' by done.
  destruct (LoadConfig_in_main w path expandENV cfg (commandLine w ++ registered))
    as (Htest & _ & _ & Hload). cbv zeta in *.
  rewrite (readResult_file w path buf Hne Hfile) in Hload.
  destruct Hload as (Hres & Hhash & Htrace).
  destruct (LoadConfig path expandENV cfg _) as [[cfg' err] w1]; simpl in *.
  destruct (UnmarshalStrict (document w expandENV buf) cfg).2 as [cause|];
    simpl in Hres; subst err.
  - rewrite Hrun. simpl. split; [done|]. split; [done|]. intros _. rewrite Htest.
    destruct (testMode w); split; try done; [by left|by intros [?|?]].
  - split; [|split].
    + rewrite Hrun. by destruct (ignoreBootstrapFlags_frame w1) as (_ & _ & -> & _).
    + rewrite Hrun. by destruct (ignoreBootstrapFlags_frame w1) as (_ & _ & _ & ->).
    + intros Hfresh. rewrite Hrun' by done. simpl. split; [by right|done].
Qed.

(** X13: the registrations at the end of [main] can panic.  In a world
    where the flags of the configuration can be registered and the load
    reports no error (no path was given, or the file was read and the
    decoder accepted the document), [main] panics with the redefinition of
    [config.file] when that name is registered already, by the world it
    starts in or by the configuration, else with the redefinition of
    [config.expand-env] when that name is, and returns when neither is. *)
Theorem main_panics_on_redefinition (w : World) :
  registrable w (RegisterFlags zeroConfig).2 →
  let path := (parseConfigFileParameter (osArgs w)).1 in
  let expandENV := (parseConfigFileParameter (osArgs w)).2 in
  (path = ""
   ∨ ∃ buf, readResult w path = inl buf
            ∧ (UnmarshalStrict (document w expandENV buf)
                 (RegisterFlags zeroConfig).1).2 = None) →
  (main w).1
  = if bool_decide (configFileOption ∈ registeredNames w)
    then panicked (flagRedefined configFileOption)
    else if bool_decide (configExpandENV ∈ registeredNames w)
    then panicked (flagRedefined configExpandENV)
    else returned.
Proof.
  intros Hreg path expandENV Hload. subst path expandENV.
  rewrite main_run by done. cbv zeta.
  assert (∀ w1, commandLine w1 = (commandLine w ++ (RegisterFlags zeroConfig).2)%list →
            (ignoreBootstrapFlags w1).1
            = if bool_decide (configFileOption ∈ registeredNames w)
              then panicked (flagRedefined configFileOption)
              else if bool_decide (configExpandENV ∈ registeredNames w)
              then panicked (flagRedefined configExpandENV)
              else returned) as Hend.
  { intros w1 Hcl. rewrite ignoreBootstrapFlags_run, Hcl. unfold registeredNames.
    rewrite <- fmap_app. by repeat case_bool_decide. }
  destruct Hload as [Hpath|(buf & Hr & Hdec)].
  - rewrite Hpath. rewrite bool_decide_eq_false_2 by (by intros ?). by apply Hend.
  - destruct (decide ((parseConfigFileParameter (osArgs w)).1 = "")) as [Hpath|Hpath].
    { rewrite bool_decide_eq_false_2 by (by intros ?). by apply Hend. }
    rewrite bool_decide_eq_true_2 by done.
    destruct (LoadConfig_in_main w (parseConfigFileParameter (osArgs w)).1
                (parseConfigFileParameter (osArgs w)).2 (RegisterFlags zeroConfig).1
                (commandLine w ++ (RegisterFlags zeroConfig).2))
      as (_ & _ & Hcl & Hres). cbv zeta in Hcl, Hres.
    rewrite Hr in Hres. destruct Hres as (Hres & _). rewrite Hdec in Hres.
    rewrite Hres. by apply Hend.
Qed.


End orchestrator_results.

Lemma main_registers_flags_witness :
  commandLine (@main exampleExternal (exampleWorld ["-config.file=cfg.yaml"] "bogus: 1")).2
  = (commandLine (exampleWorld ["-config.file=cfg.yaml"] "bogus: 1")
     ++ (@RegisterFlags exampleExternal zeroConfig).2
     ++ (if bool_decide
              (stderr (@main exampleExternal
                         (exampleWorld ["-config.file=cfg.yaml"] "bogus: 1")).2
               = stderr (exampleWorld ["-config.file=cfg.yaml"] "bogus: 1"))
         then [(configFileOption, "Configuration file to load.");
               (configExpandENV,
                "Expands ${var} or $var in config according to the values of the environment variables.")]
         else []))%list.
Proof.
  apply (@main_registers_flags exampleExternal).
  - repeat split; [constructor..|by intros ? ?%elem_of_nil].
  - split; apply not_elem_of_nil.
Defined.

Lemma main_empty_path_cancels_witness :
  (@main exampleExternal
     (exampleWorld ["-config.file=cfg.yaml"; "-config.file="] "bogus: 1")).1
  = returned
  ∧ trace (@main exampleExternal
             (exampleWorld ["-config.file=cfg.yaml"; "-config.file="] "bogus: 1")).2
    = [].
Proof.
  destruct (@main_empty_path_cancels exampleExternal
              (exampleWorld ["-config.file=cfg.yaml"; "-config.file="] "bogus: 1")
              ["-config.file=cfg.yaml"] [] "-")
    as (Hout & Htrace & _);
    [by left|constructor|reflexivity
    |repeat split; [constructor..|by intros ? ?%elem_of_nil]
    |split; apply not_elem_of_nil|].
  split; [exact Hout|exact Htrace].
Defined.

Lemma main_loads_last_path_witness :
  configHash (@main exampleExternal
                (exampleWorld ["-v"; "--config.file=cfg.yaml"; "-config.expand-env"]
                   "name: $NAME")).2
  = {[ fingerprint "name: $NAME" := 1%Z ]}.
Proof.
  destruct (@main_loads_last_path exampleExternal
              (exampleWorld ["-v"; "--config.file=cfg.yaml"; "-config.expand-env"]
                 "name: $NAME")
              ["-v"] ["-config.expand-env"] "--" "cfg.yaml" "name: $NAME")
    as (_ & Hhash & _);
    [by right|repeat constructor|reflexivity|done|reflexivity
    |repeat split; [constructor..|by intros ? ?%elem_of_nil]|].
  exact Hhash.
Defined.

Lemma main_panics_on_redefinition_witness :
  (@main clashExternal (exampleWorld [] "a: 1")).1
  = panicked (flagRedefined configFileOption).
Proof.
  apply (@main_panics_on_redefinition clashExternal (exampleWorld [] "a: 1")).
  - repeat split; [repeat constructor..|].
    + by intros ?%elem_of_nil.
    + intros name _. apply not_elem_of_nil.
  - by left.
Defined.

